(** * DbManager: the persistence layer of the chat server

    A shallow embedding of [src/database/dbmanager.cpp].  The class keeps
    three SQLite tables behind one Qt connection:

    - [userinfo(username PRIMARY KEY, password)]
    - [chats(chatid INTEGER PRIMARY KEY, owner NOT NULL -> userinfo)]
    - [chatusers(rowid INTEGER PRIMARY KEY, chatid -> chats,
                 username NOT NULL -> userinfo)]

    Every member function prepares a statement, calls [exec()] and branches
    on its outcome.  The embedding keeps that shape: a member function is a
    computation in a small state monad over a [World], which holds the
    database and a schedule telling which of the coming [exec()] calls the
    store refuses.

    Chat numbers are C++ [int]s.  The code does no arithmetic on them, so
    they are integers of [Z] here; the one narrowing conversion,
    [QVariant::toInt], is written out as [int_wrap]. *)

From Stdlib Require Import ZArith List String Ascii Bool Lia.
From Stdlib Require Import DecimalString DecimalZ DecimalPos.
Import ListNotations.

Local Open Scope Z_scope.

(* ================================================================== *)
(** * Qt values *)
(* ================================================================== *)

(** A [QString] is either the null string [QString::null] (also what
    [QString()] builds) or a sequence of characters, which may be empty.
    The two are told apart where it matters to the code: [bindValue] hands a
    null string to SQLite as [NULL] and any other string, the empty one
    included, as text. *)
Inductive QString : Type :=
| QString_null : QString
| text (s : string) : QString.

Bind Scope string_scope with QString.
Coercion text : string >-> QString.

(** The characters of a string; the null string has none. *)
Definition chars (q : QString) : string :=
  match q with
  | QString_null => EmptyString
  | text s => s
  end.

(** [!QString::isNull()] *)
Definition not_null (q : QString) : bool :=
  match q with
  | QString_null => false
  | text _ => true
  end.

(** [operator==] and [operator!=] of [QString] compare the characters, so
    the null string equals the empty one. *)
Definition QString_eqb (a b : QString) : bool :=
  String.eqb (chars a) (chars b).

(** [QString::append(const QString&)]: appending the null string changes
    nothing. *)
Definition QString_append (a b : QString) : QString :=
  match b with
  | QString_null => a
  | text t => text (chars a ++ t)
  end.

(** [QString::number(int)]: the decimal rendering, ["-"] in front of
    negative numbers; never null. *)
Definition QString_number (n : Z) : string :=
  NilZero.string_of_int (Z.to_int n).

(** A C++ [int] holds 32 bits; converting a wider integer keeps the low 32
    bits, read as two's complement. *)
Definition int_wrap (z : Z) : Z := (z + 2 ^ 31) mod 2 ^ 32 - 2 ^ 31.

(** [QVariant] conversions of a fetched column.  [None] is the invalid
    variant that [QSqlQuery::value] returns off a valid row: it converts to
    the null string and to [0].  A text column comes back as the string that
    was bound, a [NULL] one as the null string. *)
Definition toString_int (v : option Z) : QString :=
  match v with
  | Some z => text (QString_number z)
  | None => QString_null
  end.

Definition toString_text (v : option QString) : QString :=
  match v with
  | Some s => s
  | None => QString_null
  end.

Definition toInt (v : option Z) : Z :=
  match v with
  | Some z => int_wrap z
  | None => 0
  end.

(* ================================================================== *)
(** * QSqlQuery: a result set with a cursor *)
(* ================================================================== *)

(** The two special cursor positions of [QSql::Location]. *)
Definition BeforeFirstRow : Z := -1.
Definition AfterLastRow : Z := -2.

(** A query object after [exec()]: whether it is active, the rows of its
    result, and the cursor.  Copies of a [QSqlQuery] share one result, so
    the cursor moves made inside [sqlSize] (which takes its argument by
    value) are seen by the caller; the functions below therefore return
    the moved query. *)
Record QSqlQuery (R : Type) : Type := mkQuery {
  isActive : bool;
  result : list R;
  at_ : Z
}.

Arguments mkQuery {R} _ _ _.
Arguments isActive {R} _.
Arguments result {R} _.
Arguments at_ {R} _.

Section Cursor.
Context {R : Type}.

Definition set_at (q : QSqlQuery R) (i : Z) : QSqlQuery R :=
  mkQuery (isActive q) (result q) i.

Definition rowCount (q : QSqlQuery R) : Z :=
  Z.of_nat (List.length (result q)).

(** [QSqlQuery::last()]: moves to the last row; fails, leaving the cursor
    alone, on an inactive query or an empty result. *)
Definition q_last (q : QSqlQuery R) : bool * QSqlQuery R :=
  if isActive q && (0 <? rowCount q)
  then (true, set_at q (rowCount q - 1))
  else (false, q).

(** [QSqlQuery::seek(index)], absolute: a negative index parks the cursor
    before the first row and reports failure. *)
Definition q_seek (q : QSqlQuery R) (index : Z) : bool * QSqlQuery R :=
  if negb (isActive q) then (false, q)
  else if index <? 0 then (false, set_at q BeforeFirstRow)
  else if index <? rowCount q then (true, set_at q index)
  else (false, set_at q AfterLastRow).

(** [QSqlQuery::next()].  Once the cursor is after the last row every
    further call fails: nothing rewinds it. *)
Definition q_next (q : QSqlQuery R) : bool * QSqlQuery R :=
  if negb (isActive q) then (false, q)
  else if at_ q =? BeforeFirstRow then
    if 0 <? rowCount q then (true, set_at q 0) else (false, q)
  else if at_ q =? AfterLastRow then (false, q)
  else if at_ q + 1 <? rowCount q then (true, set_at q (at_ q + 1))
  else (false, set_at q AfterLastRow).

(** [QSqlQuery::value(0)]: the row under the cursor, if it is on one. *)
Definition q_value (q : QSqlQuery R) : option R :=
  if (at_ q <? 0) || negb (isActive q) then None
  else nth_error (result q) (Z.to_nat (at_ q)).

(** [DbManager::sqlSize]: the number of rows, found by jumping to the last
    row; the cursor is then put back where it was. *)
Definition sqlSize (query : QSqlQuery R) : Z * QSqlQuery R :=
  let initialPos := at_ query in
  let (moved, query) := q_last query in
  let pos := if moved then at_ query + 1 else 0 in
  let (_, query) := q_seek query initialPos in
  (pos, query).

(** [while (query.next()) { acc = body(query.value(0), acc); }] *)
Fixpoint while_next {S : Type} (fuel : nat) (body : option R -> S -> S)
    (query : QSqlQuery R) (acc : S) : S * QSqlQuery R :=
  match fuel with
  | O => (acc, query)
  | Datatypes.S fuel' =>
      let (more, query) := q_next query in
      if more then while_next fuel' body query (body (q_value query) acc)
      else (acc, query)
  end.

(** Iterations a [while (query.next())] loop can make, plus the failing
    call that ends it. *)
Definition loop_fuel (query : QSqlQuery R) : nat :=
  Datatypes.S (List.length (result query)).

(** The three states a cursor over [rows] goes through: as [exec()]
    leaves it, on row [k], and past the last row. *)
Definition fresh (rows : list R) : QSqlQuery R :=
  mkQuery true rows BeforeFirstRow.
Definition on_row (rows : list R) (k : nat) : QSqlQuery R :=
  mkQuery true rows (Z.of_nat k).
Definition spent (rows : list R) : QSqlQuery R :=
  mkQuery true rows AfterLastRow.

(** One round of a [while_next] loop, on a fetched row. *)
Definition loop_step {S : Type} (body : option R -> S -> S)
    (acc : S) (r : R) : S :=
  body (Some r) acc.
End Cursor.

(* ================================================================== *)
(** * The store *)
(* ================================================================== *)

(** The tables, each in the order a table scan returns its rows.  A text
    column holds what [bindValue] bound: a string, or [NULL] for the null
    string, so a [QString] stands for the column's value.  The
    [rowid] of [chatusers] is assigned by SQLite past the largest one in use
    and never read by the code; the position in the list stands for it.
    [foreign_keys] is the connection's [PRAGMA foreign_keys]: SQLite checks
    the [FOREIGN KEY] clauses of the schema only when it is on. *)
Record Database : Type := mkDatabase {
  foreign_keys : bool;
  userinfo : list (QString * QString);
  chats : list (Z * QString);
  chatusers : list (Z * QString)
}.

(** The database together with the outcomes the store has in stock for the
    coming [exec()] calls: [true] lets the statement run, [false] makes it
    fail with a store error (lost connection, locked file).  Past the end
    of the schedule every statement runs. *)
Record World : Type := mkWorld {
  db : Database;
  schedule : list bool
}.

(** The store as [DbManager::DbManager()] opens it and the two [create]
    calls leave it: empty tables, and the pragma at SQLite's default, which
    the class never changes. *)
Definition empty_db : Database := mkDatabase false [] [] [].

Definition healthy (d : Database) : World := mkWorld d [].

(** ** The state monad of the member functions *)

Definition M (A : Type) : Type := World -> A * World.

Definition ret {A : Type} (a : A) : M A := fun w => (a, w).

Definition bind {A B : Type} (c : M A) (k : A -> M B) : M B :=
  fun w => let (a, w') := c w in k a w'.

Notation "x <- c1 ;; c2" := (bind c1 (fun x => c2))
  (at level 61, c1 at next level, right associativity).
Notation "' pat <- c1 ;; c2" :=
  (bind c1 (fun x => match x with pat => c2 end))
  (at level 61, pat pattern, c1 at next level, right associativity).

(** ** Statements *)

(** [column = ?] in a [WHERE] clause, and the test for an equal key: text
    is compared character for character (SQLite uses the BINARY collation
    unless told otherwise); with [NULL] on either side the comparison does
    not hold, so nothing equals a bound null string and no two [NULL] keys
    clash. *)
Definition sql_eqb (column bound : QString) : bool :=
  match column, bound with
  | text a, text b => String.eqb a b
  | _, _ => false
  end.

Definition has_user (u : QString) (d : Database) : bool :=
  existsb (fun r => sql_eqb (fst r) u) (userinfo d).

Definition has_chat (c : Z) (d : Database) : bool :=
  existsb (fun r => Z.eqb (fst r) c) (chats d).

Definition has_member_row (c : Z) (d : Database) : bool :=
  existsb (fun r => Z.eqb (fst r) c) (chatusers d).

(** [SELECT username FROM userinfo WHERE username = ?] *)
Definition SELECT_username_FROM_userinfo (u : QString) (d : Database)
  : list QString :=
  map fst (filter (fun r => sql_eqb (fst r) u) (userinfo d)).

(** The row test of [WHERE username = ? AND password = ?]: both columns
    equal the bound strings. *)
Definition matches (u p : QString) (r : QString * QString) : bool :=
  sql_eqb (fst r) u && sql_eqb (snd r) p.

(** [SELECT * FROM userinfo WHERE username = ? AND password = ?] *)
Definition SELECT_FROM_userinfo (u p : QString) (d : Database)
  : list (QString * QString) :=
  filter (matches u p) (userinfo d).

(** [SELECT * FROM chats WHERE chatid = ?] *)
Definition SELECT_FROM_chats (c : Z) (d : Database) : list (Z * QString) :=
  filter (fun r => Z.eqb (fst r) c) (chats d).

(** [SELECT owner FROM chats WHERE chatid = ?] *)
Definition SELECT_owner_FROM_chats (c : Z) (d : Database) : list QString :=
  map snd (filter (fun r => Z.eqb (fst r) c) (chats d)).

(** [SELECT chatid FROM chatusers WHERE username = ?] *)
Definition SELECT_chatid_FROM_chatusers (u : QString) (d : Database)
  : list Z :=
  map fst (filter (fun r => sql_eqb (snd r) u) (chatusers d)).

(** [SELECT username FROM chatusers WHERE chatid = ?] *)
Definition SELECT_username_FROM_chatusers (c : Z) (d : Database)
  : list QString :=
  map snd (filter (fun r => Z.eqb (fst r) c) (chatusers d)).

(** [INSERT INTO userinfo VALUES (?, ?)]: refused on a duplicate key.
    [username] is a [VARCHAR PRIMARY KEY] without [NOT NULL]: SQLite lets
    such a key be [NULL], in any number of rows. *)
Definition INSERT_INTO_userinfo (u p : QString) (d : Database)
  : option Database :=
  if has_user u d then None
  else Some (mkDatabase (foreign_keys d) (userinfo d ++ [(u, p)])%list
                        (chats d) (chatusers d)).

(** [INSERT INTO chats (chatid, owner) VALUES (?, ?)]: refused on a
    [NULL] owner ([owner] is [NOT NULL]), on a duplicate key and, with the
    pragma on, on an owner that is no user. *)
Definition INSERT_INTO_chats (c : Z) (o : QString) (d : Database)
  : option Database :=
  match o with
  | QString_null => None
  | text _ =>
      if has_chat c d then None
      else if foreign_keys d && negb (has_user o d) then None
      else Some (mkDatabase (foreign_keys d) (userinfo d)
                            (chats d ++ [(c, o)])%list (chatusers d))
  end.

(** [INSERT INTO chatusers (chatid, username) VALUES (?, ?)]: the row goes
    to the end of the table; refused on a [NULL] username ([username] is
    [NOT NULL]) and, with the pragma on, when the chat or the user is
    missing. *)
Definition INSERT_INTO_chatusers (c : Z) (u : QString) (d : Database)
  : option Database :=
  match u with
  | QString_null => None
  | text _ =>
      if foreign_keys d && negb (has_chat c d && has_user u d) then None
      else Some (mkDatabase (foreign_keys d) (userinfo d) (chats d)
                            (chatusers d ++ [(c, u)])%list)
  end.

(** [DELETE FROM chats WHERE chatid = ?]: with the pragma on, refused
    while membership rows still refer to the chat. *)
Definition DELETE_FROM_chats (c : Z) (d : Database) : option Database :=
  if foreign_keys d && has_member_row c d then None
  else Some (mkDatabase (foreign_keys d) (userinfo d)
               (filter (fun r => negb (Z.eqb (fst r) c)) (chats d))
               (chatusers d)).

(** [DELETE FROM chatusers WHERE chatid = ?] *)
Definition DELETE_FROM_chatusers (c : Z) (d : Database) : option Database :=
  Some (mkDatabase (foreign_keys d) (userinfo d) (chats d)
          (filter (fun r => negb (Z.eqb (fst r) c)) (chatusers d))).

(** ** [exec()] *)

(** The store's verdict on the next statement. *)
Definition store_runs : M bool := fun w =>
  (hd true (schedule w), mkWorld (db w) (tl (schedule w))).

(** [exec()] of a [SELECT]: on success the query is active on the selected
    rows with the cursor before the first one. *)
Definition exec_select {R : Type} (sel : Database -> list R)
  : M (bool * QSqlQuery R) :=
  runs <- store_runs ;;
  fun w =>
    if runs then ((true, mkQuery true (sel (db w)) BeforeFirstRow), w)
    else ((false, mkQuery false [] BeforeFirstRow), w).

(** [exec()] of an [INSERT] or [DELETE]: fails, changing nothing, when the
    store refuses the statement or a constraint rejects it. *)
Definition exec_update (stmt : Database -> option Database) : M bool :=
  runs <- store_runs ;;
  fun w =>
    if runs then
      match stmt (db w) with
      | Some d' => (true, mkWorld d' (schedule w))
      | None => (false, w)
      end
    else (false, w).

(* ================================================================== *)
(** * The member functions of DbManager *)
(* ================================================================== *)

(** [bool DbManager::userExists(const QString& inputusername)] *)
Definition userExists (inputusername : QString) : M bool :=
  '(ok, query) <- exec_select (SELECT_username_FROM_userinfo inputusername) ;;
  if ok then
    let (size, _) := sqlSize query in
    if 0 <? size then ret true else ret false
  else ret false.

(** [bool DbManager::addUser(const QString& username,
                             const QString& password)] *)
Definition addUser (username password : QString) : M bool :=
  exists_ <- userExists username ;;
  if exists_ then ret false
  else
    ok <- exec_update (INSERT_INTO_userinfo username password) ;;
    if negb ok then ret false else ret true.

(** [bool DbManager::checkUserInfo(const QString& username,
                                   const QString& password)] *)
Definition checkUserInfo (username password : QString) : M bool :=
  exists_ <- userExists username ;;
  if negb exists_ then ret false
  else
    '(ok, query) <- exec_select (SELECT_FROM_userinfo username password) ;;
    if negb ok then ret false
    else
      let (size, _) := sqlSize query in
      if 0 <? size then ret true else ret false.

(** [bool DbManager::chatExists(int chatID)] *)
Definition chatExists (chatID : Z) : M bool :=
  '(ok, query) <- exec_select (SELECT_FROM_chats chatID) ;;
  if ok then
    let (size, _) := sqlSize query in
    if 0 <? size then ret true else ret false
  else ret false.

(** [QString DbManager::getChatOwner(int chatID)]: the loop overwrites
    [chatOwner] with every fetched row, so the last one stays. *)
Definition getChatOwner (chatID : Z) : M QString :=
  let chatOwner := QString_null in
  exists_ <- chatExists chatID ;;
  if negb exists_ then ret chatOwner
  else
    '(ok, query) <- exec_select (SELECT_owner_FROM_chats chatID) ;;
    if negb ok then ret chatOwner
    else
      let (size, query) := sqlSize query in
      if 0 <? size then
        ret (fst (while_next (loop_fuel query)
                    (fun v _ => toString_text v) query chatOwner))
      else ret chatOwner.

(** The membership loop of [addChat]: [rest] holds [userVector[i..]].
    [success] is raised by a successful insert at the last index and never
    lowered. *)
Fixpoint addChat_loop (chatID : Z) (size : Z) (i : Z) (rest : list QString)
    (success : bool) : M bool :=
  match rest with
  | [] => ret success
  | user :: rest' =>
      ok <- exec_update (INSERT_INTO_chatusers chatID user) ;;
      let success :=
        if negb ok then success
        else if i =? size - 1 then true else success in
      addChat_loop chatID size (i + 1) rest' success
  end.

(** [bool DbManager::addChat(int chatID, const QString& username,
                             QVector<QString> userVector)] *)
Definition addChat (chatID : Z) (username : QString)
    (userVector : list QString) : M bool :=
  let success := false in
  exists_ <- chatExists chatID ;;
  if exists_ then ret success
  else
    owner_exists <- userExists username ;;
    if negb owner_exists then ret success
    else
      ok <- exec_update (INSERT_INTO_chats chatID username) ;;
      if negb ok then ret success
      else
        addChat_loop chatID (Z.of_nat (List.length userVector)) 0
                     userVector success.

(** [bool DbManager::removeChat(int chatID, const QString& username)] *)
Definition removeChat (chatID : Z) (username : QString) : M bool :=
  exists_ <- chatExists chatID ;;
  if exists_ then
    chatOwner <- getChatOwner chatID ;;
    if QString_eqb chatOwner username then
      ok <- exec_update (DELETE_FROM_chats chatID) ;;
      if negb ok then ret false
      else
        ok1 <- exec_update (DELETE_FROM_chatusers chatID) ;;
        if negb ok1 then ret false else ret true
    else ret false
  else ret false.

(** The inner loop of [doUsersChat]: advances [query2] until a row renders
    like [v1] or the rows run out. *)
Fixpoint doUsersChat_inner (fuel : nat) (v1 : QString) (query2 : QSqlQuery Z)
  : bool * QSqlQuery Z :=
  match fuel with
  | O => (false, query2)
  | S fuel' =>
      let (more, query2) := q_next query2 in
      if more then
        if QString_eqb v1 (toString_int (q_value query2)) then (true, query2)
        else doUsersChat_inner fuel' v1 query2
      else (false, query2)
  end.

(** The outer loop: [query2] is the same object in every round and is not
    rewound between rounds. *)
Fixpoint doUsersChat_outer (fuel : nat) (query1 query2 : QSqlQuery Z)
  : bool :=
  match fuel with
  | O => false
  | S fuel' =>
      let (more, query1) := q_next query1 in
      if more then
        let (found, query2) :=
          doUsersChat_inner (loop_fuel query2)
            (toString_int (q_value query1)) query2 in
        if found then true else doUsersChat_outer fuel' query1 query2
      else false
  end.

(** [bool DbManager::doUsersChat(const QString& inputusername1,
                                 const QString& inputusername2)] *)
Definition doUsersChat (inputusername1 inputusername2 : QString) : M bool :=
  '(ok1, query1) <-
     exec_select (SELECT_chatid_FROM_chatusers inputusername1) ;;
  if ok1 then
    let (size1, query1) := sqlSize query1 in
    if 0 <? size1 then
      '(ok2, query2) <-
         exec_select (SELECT_chatid_FROM_chatusers inputusername2) ;;
      if ok2 then
        let (size2, query2) := sqlSize query2 in
        if 0 <? size2 then
          ret (doUsersChat_outer (loop_fuel query1) query1 query2)
        else ret false
      else ret false
    else ret false
  else ret false.

(** [QVector<QString> DbManager::getChatUsers(int chatID)] *)
Definition getChatUsers (chatID : Z) : M (list QString) :=
  exists_ <- chatExists chatID ;;
  if negb exists_ then ret []
  else
    let chatUsersVector : list QString := [] in
    '(ok, query) <- exec_select (SELECT_username_FROM_chatusers chatID) ;;
    if negb ok then ret chatUsersVector
    else
      let (size, query) := sqlSize query in
      if 0 <? size then
        ret (fst (while_next (loop_fuel query)
                    (fun v vec => vec ++ [toString_text v])
                    query chatUsersVector))
      else ret chatUsersVector.

(** [QVector<int> DbManager::getChatsUserIsIn(const QString& inputusername)] *)
Definition getChatsUserIsIn (inputusername : QString) : M (list Z) :=
  exists_ <- userExists inputusername ;;
  if negb exists_ then ret []
  else
    let chatsUserIsInVector : list Z := [] in
    '(ok, query) <- exec_select (SELECT_chatid_FROM_chatusers inputusername) ;;
    if negb ok then ret chatsUserIsInVector
    else
      let (size, query) := sqlSize query in
      if 0 <? size then
        ret (fst (while_next (loop_fuel query)
                    (fun v vec => vec ++ [toInt v])
                    query chatsUserIsInVector))
      else ret chatsUserIsInVector.

(** The loop of [getUserChatInfo] over the users of one chat; the state is
    the string built so far and the first-item flag. *)
Fixpoint getUserChatInfo_users (inputusername : QString) (tempChatID : Z)
    (users : list QString) (st : QString * Z) : QString * Z :=
  match users with
  | [] => st
  | tempUser :: users' =>
      let (temp, flag) := st in
      if negb (QString_eqb tempUser inputusername) then
        let temp := if flag =? 1 then QString_append temp "," else temp in
        let temp := QString_append temp (QString_number tempChatID) in
        let temp := QString_append temp "," in
        let temp := QString_append temp tempUser in
        getUserChatInfo_users inputusername tempChatID users' (temp, 1)
      else getUserChatInfo_users inputusername tempChatID users' (temp, flag)
  end.

(** The loop over the chat ID numbers. *)
Fixpoint getUserChatInfo_chats (inputusername : QString) (ids : list Z)
    (st : QString * Z) : M (QString * Z) :=
  match ids with
  | [] => ret st
  | tempChatID :: ids' =>
      users <- getChatUsers tempChatID ;;
      getUserChatInfo_chats inputusername ids'
        (getUserChatInfo_users inputusername tempChatID users st)
  end.

(** [QString DbManager::getUserChatInfo(const QString& inputusername)] *)
Definition getUserChatInfo (inputusername : QString) : M QString :=
  let temp : QString := EmptyString in
  let flag := 0 in
  chatsUserIsIn <- getChatsUserIsIn inputusername ;;
  match chatsUserIsIn with
  | [] => ret temp
  | _ :: _ =>
      st <- getUserChatInfo_chats inputusername chatsUserIsIn (temp, flag) ;;
      ret (fst st)
  end.

(* ================================================================== *)
(** * Creating the tables *)
(* ================================================================== *)

(** Which of the three tables the database file holds. *)
Record Schema : Type := mkSchema {
  userinfo_table : bool;
  chats_table : bool;
  chatusers_table : bool
}.

(** The connection at start-up: the tables of the file and, as in [World],
    the store's verdicts on the coming statements. *)
Record Connection : Type := mkConnection {
  tables : Schema;
  verdicts : list bool
}.

(** [CREATE TABLE userinfo(...)]: refused when the table is there. *)
Definition CREATE_TABLE_userinfo (s : Schema) : option Schema :=
  if userinfo_table s then None
  else Some (mkSchema true (chats_table s) (chatusers_table s)).

(** [CREATE TABLE chats(...)].  SQLite does not look for the table a
    [FOREIGN KEY] clause names when it creates a table, so [userinfo] need
    not exist. *)
Definition CREATE_TABLE_chats (s : Schema) : option Schema :=
  if chats_table s then None
  else Some (mkSchema (userinfo_table s) true (chatusers_table s)).

(** [CREATE TABLE chatusers(...)] *)
Definition CREATE_TABLE_chatusers (s : Schema) : option Schema :=
  if chatusers_table s then None
  else Some (mkSchema (userinfo_table s) (chats_table s) true).

(** [exec()] of a [CREATE TABLE]. *)
Definition exec_create (stmt : Schema -> option Schema) (c : Connection)
  : bool * Connection :=
  let rest := tl (verdicts c) in
  if hd true (verdicts c) then
    match stmt (tables c) with
    | Some s' => (true, mkConnection s' rest)
    | None => (false, mkConnection (tables c) rest)
    end
  else (false, mkConnection (tables c) rest).

(** [bool DbManager::createUserTable()] *)
Definition createUserTable (c : Connection) : bool * Connection :=
  let success := false in
  let (ok, c) := exec_create CREATE_TABLE_userinfo c in
  if negb ok then (success, c) else (true, c).

(** [bool DbManager::createChatTables()]: the second table is tried only
    when the first one went in. *)
Definition createChatTables (c : Connection) : bool * Connection :=
  let success := false in
  let (ok1, c) := exec_create CREATE_TABLE_chats c in
  if negb ok1 then (success, c)
  else
    let (ok2, c) := exec_create CREATE_TABLE_chatusers c in
    if negb ok2 then (success, c) else (true, c).

(* ================================================================== *)
(** * The demonstration of main.cpp *)
(* ================================================================== *)

(** A call made for its effect on the world, and for the value it
    returns. *)
Definition exec_ {A : Type} (c : M A) (w : World) : World := snd (c w).
Definition eval {A : Type} (c : M A) (w : World) : A := fst (c w).

Definition chat1 : list QString := [text "Bob"; text "Fred"; text "Harry"].
Definition chat2 : list QString := [text "Fred"; text "Harry"].

(** The four users of the demonstration. *)
Definition demo_users : World :=
  exec_ (addUser "Rick" "password4")
    (exec_ (addUser "Harry" "password3")
       (exec_ (addUser "Fred" "password2")
          (exec_ (addUser "Bob" "password1") (healthy empty_db)))).

(** ... and its two chats. *)
Definition demo_chats : World :=
  exec_ (addChat 2 "Harry" chat2)
    (exec_ (addChat 1 "Bob" chat1)
       (exec_ (addChat 1 "Nick" chat1) demo_users)).

(* ================================================================== *)
(** * Vocabulary of the properties *)
(* ================================================================== *)

(** The store's verdict on the next statement, and the world once it has
    given it. *)
Definition next_runs (w : World) : bool := hd true (schedule w).
Definition tick (w : World) : World := mkWorld (db w) (tl (schedule w)).

(** The world once the store has answered [n] statements. *)
Definition after_statements (n : nat) (w : World) : World :=
  mkWorld (db w) (skipn n (schedule w)).

(** The store lets the next [n] statements run. *)
Definition statements_run (n : nat) (w : World) : bool :=
  forallb (fun b => b) (firstn n (schedule w)).

(** The membership inserts of one [addChat] call, in input order, each with
    its own outcome. *)
Fixpoint member_inserts (chatID : Z) (members : list QString)
  : M (list bool) :=
  match members with
  | [] => ret []
  | user :: rest =>
      ok <- exec_update (INSERT_INTO_chatusers chatID user) ;;
      oks <- member_inserts chatID rest ;;
      ret (ok :: oks)
  end.

(** The row test of the inner loop of [doUsersChat]. *)
Definition renders_like (v1 : QString) (c : Z) : bool :=
  QString_eqb v1 (QString_number c).

(** Every membership row names a chat of [chats] and a user of
    [userinfo]. *)
Definition referential_integrity (d : Database) : bool :=
  forallb (fun r => has_chat (fst r) d && has_user (snd r) d) (chatusers d).

(** Two users have a chat in common. *)
Definition share_a_chat (a b : QString) (d : Database) : Prop :=
  exists c : Z, In (c, a) (chatusers d) /\ In (c, b) (chatusers d).

(** The calls a front end can make. *)
Inductive Call : Type :=
| CallAddUser (username password : QString)
| CallUserExists (username : QString)
| CallCheckUserInfo (username password : QString)
| CallAddChat (chatID : Z) (username : QString) (userVector : list QString)
| CallRemoveChat (chatID : Z) (username : QString)
| CallChatExists (chatID : Z)
| CallGetChatOwner (chatID : Z)
| CallDoUsersChat (username1 username2 : QString)
| CallGetChatUsers (chatID : Z)
| CallGetChatsUserIsIn (username : QString)
| CallGetUserChatInfo (username : QString).

Definition run_call (c : Call) (w : World) : World :=
  match c with
  | CallAddUser u p => exec_ (addUser u p) w
  | CallUserExists u => exec_ (userExists u) w
  | CallCheckUserInfo u p => exec_ (checkUserInfo u p) w
  | CallAddChat c o us => exec_ (addChat c o us) w
  | CallRemoveChat c u => exec_ (removeChat c u) w
  | CallChatExists c => exec_ (chatExists c) w
  | CallGetChatOwner c => exec_ (getChatOwner c) w
  | CallDoUsersChat a b => exec_ (doUsersChat a b) w
  | CallGetChatUsers c => exec_ (getChatUsers c) w
  | CallGetChatsUserIsIn u => exec_ (getChatsUserIsIn u) w
  | CallGetUserChatInfo u => exec_ (getUserChatInfo u) w
  end.

Definition run_calls (cs : list Call) (w : World) : World :=
  fold_left (fun w c => run_call c w) cs w.

(** The tokens of a user's summary: for each chat of [getChatsUserIsIn], for
    each user of [getChatUsers] other than the user asked about, the chat
    number and that user. *)
Definition other_member (u : QString) (c : Z) (m : QString) : list string :=
  if QString_eqb m u then [] else [QString_number c; chars m].

Definition summary_tokens (u : QString) (d : Database) : list string :=
  flat_map
    (fun c => flat_map (other_member u c) (eval (getChatUsers c) (healthy d)))
    (eval (getChatsUserIsIn u) (healthy d)).

(** The first-item flag of [getUserChatInfo] once [tokens] are written. *)
Definition flag_after (tokens : list string) : Z :=
  match tokens with
  | [] => 0
  | _ :: _ => 1
  end.

Definition starts_with_comma (s : string) : bool :=
  match s with
  | String a _ => Ascii.eqb a ","
  | EmptyString => false
  end.

Fixpoint ends_with_comma (s : string) : bool :=
  match s with
  | EmptyString => false
  | String a EmptyString => Ascii.eqb a ","
  | String _ rest => ends_with_comma rest
  end.

(** The shape claimed for the summary of every user. *)
Definition comma_free_summary (u : QString) (d : Database) : Prop :=
  let s := eval (getUserChatInfo u) (healthy d) in
  s = text (String.concat "," (summary_tokens u d))
  /\ starts_with_comma (chars s) = false
  /\ ends_with_comma (chars s) = false
  /\ (eval (getChatsUserIsIn u) (healthy d) = [] -> s = text EmptyString).

(** Worlds used as concrete inputs. *)

(** Bob owns chat 1 alone and chat 2 with Fred. *)
Definition two_chats : World :=
  run_calls [CallAddUser "Bob" "password1"; CallAddUser "Fred" "password2";
             CallAddChat 1 "Bob" [text "Bob"];
             CallAddChat 2 "Bob" [text "Bob"; text "Fred"]]
            (healthy empty_db).

(** Bob puts a name that is no user into his chat. *)
Definition ghost_member : World :=
  run_calls [CallAddUser "Bob" "password1";
             CallAddChat 1 "Bob" [text "Ghost"]]
            (healthy empty_db).

(** Fred chats with a user whose name ends with a comma ... *)
Definition comma_member : World :=
  run_calls [CallAddUser "Fred" "password2"; CallAddUser "Harry," "password3";
             CallAddChat 1 "Fred" [text "Fred"; text "Harry,"]]
            (healthy empty_db).

(** ... or with a user whose name is the empty string. *)
Definition nameless_member : World :=
  run_calls [CallAddUser "Fred" "password2"; CallAddUser "" "password5";
             CallAddChat 1 "Fred" [text "Fred"; text ""]]
            (healthy empty_db).

(** The same tables behind a connection that has the pragma on. *)
Definition with_foreign_keys (w : World) : World :=
  mkWorld (mkDatabase true (userinfo (db w)) (chats (db w))
                      (chatusers (db w)))
          (schedule w).

(** Every membership row names a chat of [chats]. *)
Definition chat_integrity (d : Database) : bool :=
  forallb (fun r => has_chat (fst r) d) (chatusers d).

(** The database after a successful [addChat] on a store that does not
    fail: the chat row and a membership row for each member that is not
    null. *)
Definition with_chat (c : Z) (o : QString) (members : list QString)
    (d : Database) : Database :=
  mkDatabase (foreign_keys d) (userinfo d) (chats d ++ [(c, o)])
             (chatusers d ++ map (fun u => (c, u)) (filter not_null members)).

(** The database after a successful [removeChat]. *)
Definition without_chat (c : Z) (d : Database) : Database :=
  mkDatabase (foreign_keys d) (userinfo d)
             (filter (fun r => negb (Z.eqb (fst r) c)) (chats d))
             (filter (fun r => negb (Z.eqb (fst r) c)) (chatusers d)).

(** The name a [userinfo] key holds, if it is not [NULL]. *)
Definition key_name (r : QString * QString) : list string :=
  match fst r with
  | QString_null => []
  | text s => [s]
  end.

(** The primary keys hold: no two users with one name, no two chats with
    one number.  [NULL] keys are not names and may repeat. *)
Definition keys_unique (d : Database) : Prop :=
  NoDup (flat_map key_name (userinfo d)) /\ NoDup (map fst (chats d)).

(** A chat number that fits a C++ [int]. *)
Definition fits_int (c : Z) : Prop := - 2 ^ 31 <= c < 2 ^ 31.

(** The cursor is where a sequence of [next()] calls can have left it. *)
Definition well_placed {R : Type} (q : QSqlQuery R) : Prop :=
  at_ q = BeforeFirstRow \/ at_ q = AfterLastRow
  \/ 0 <= at_ q < rowCount q.

(** Where [sqlSize] leaves the cursor. *)
Definition after_sqlSize {R : Type} (q : QSqlQuery R) : QSqlQuery R :=
  set_at q (if at_ q =? AfterLastRow then BeforeFirstRow else at_ q).

(** Fred is a member of a chat whose row is gone and of none other. *)
Definition stale_rows : World :=
  healthy (mkDatabase false
             [(text "Bob", text "password1"); (text "Fred", text "password2")]
             [] [(1, text "Bob"); (1, text "Fred")]).

(* ================================================================== *)
(** * Cursor lemmas *)
(* ================================================================== *)

Ltac zcases :=
  repeat match goal with
  | |- context [Z.eqb ?a ?b] => destruct (Z.eqb_spec a b); try lia
  | |- context [Z.ltb ?a ?b] => destruct (Z.ltb_spec a b); try lia
  end.

Section CursorFacts.
Context {R : Type}.
Implicit Types (rows : list R) (q : QSqlQuery R).

Lemma sqlSize_fresh rows :
  sqlSize (fresh rows) = (Z.of_nat (List.length rows), fresh rows).
Proof.
  unfold sqlSize, q_last, q_seek, fresh, rowCount, set_at, BeforeFirstRow.
  destruct rows as [|r rows]; cbn [isActive result at_ andb negb List.length].
  - reflexivity.
  - zcases. cbn [at_ isActive negb]. zcases. f_equal. lia.
Qed.

Lemma skipn_cons_inv rows : forall (n : nat) (x : R) (t : list R),
  skipn n rows = x :: t ->
  nth_error rows n = Some x /\ skipn (S n) rows = t
  /\ (n < List.length rows)%nat.
Proof.
  induction rows as [|r rows IH]; intros n x t H.
  - destruct n; discriminate.
  - destruct n as [|n]; cbn in H |- *.
    + injection H as -> ->. repeat split. lia.
    + destruct (IH n x t H) as (H1 & H2 & H3). repeat split; auto. lia.
Qed.

Lemma skipn_nil_inv rows (n : nat) :
  skipn n rows = [] -> (List.length rows <= n)%nat.
Proof.
  revert n. induction rows as [|r rows IH]; intros [|n] H; cbn in *;
    try lia; try discriminate.
  apply IH in H. lia.
Qed.

Lemma q_next_on_row_more rows (k : nat) (x : R) :
  nth_error rows (S k) = Some x ->
  q_next (on_row rows k) = (true, on_row rows (S k))
  /\ q_value (on_row rows (S k)) = Some x.
Proof.
  intros H.
  assert (S k < List.length rows)%nat
    by (apply nth_error_Some; congruence).
  unfold q_next, q_value, on_row, rowCount, set_at,
    BeforeFirstRow, AfterLastRow.
  cbn [isActive result at_ negb orb]. zcases. split.
  - do 2 f_equal. lia.
  - destruct (Z.ltb_spec (Z.of_nat (S k)) 0); try lia.
    cbn [orb]. now rewrite Nat2Z.id.
Qed.

Lemma q_next_on_row_last rows (k : nat) :
  List.length rows = S k ->
  q_next (on_row rows k) = (false, spent rows).
Proof.
  intros H.
  unfold q_next, on_row, spent, rowCount, set_at,
    BeforeFirstRow, AfterLastRow.
  cbn [isActive result at_ negb]. rewrite H. zcases. reflexivity.
Qed.

Lemma q_next_spent rows : q_next (spent rows) = (false, spent rows).
Proof. reflexivity. Qed.

Lemma q_next_fresh_cons (x : R) rows :
  q_next (fresh (x :: rows)) = (true, on_row (x :: rows) 0)
  /\ q_value (on_row (x :: rows) 0) = Some x.
Proof. split; reflexivity. Qed.

Lemma q_next_fresh_nil :
  q_next (fresh (@nil R)) = (false, fresh []).
Proof. reflexivity. Qed.

Section While.
Context {S' : Type} (body : option R -> S' -> S').

(** From a row, the loop folds the body over the rows that follow and
    leaves the cursor after the last row. *)
Lemma while_next_on_row rows : forall (rest : list R) (k fuel : nat) acc,
  skipn (S k) rows = rest ->
  (k < List.length rows)%nat ->
  (List.length rest < fuel)%nat ->
  while_next fuel body (on_row rows k) acc
  = (fold_left (loop_step body) rest acc, spent rows).
Proof.
  induction rest as [|x rest IH]; intros k fuel acc Hs Hk Hf.
  - apply skipn_nil_inv in Hs.
    destruct fuel as [|fuel]; [cbn in Hf; lia|].
    cbn [while_next]. rewrite q_next_on_row_last by lia. reflexivity.
  - destruct (skipn_cons_inv _ _ _ _ Hs) as (Hn & Hs' & Hlt).
    destruct fuel as [|fuel]; [cbn in Hf; lia|].
    cbn [while_next].
    destruct (q_next_on_row_more rows k x Hn) as [-> Hv].
    rewrite Hv. cbn [fold_left]. apply IH; auto. cbn in Hf. lia.
Qed.

(** A loop started right after [exec()] folds the body over all rows. *)
Lemma while_next_fresh rows (fuel : nat) acc :
  (List.length rows < fuel)%nat ->
  fst (while_next fuel body (fresh rows) acc)
  = fold_left (loop_step body) rows acc.
Proof.
  intros Hf. destruct fuel as [|fuel]; [lia|].
  destruct rows as [|x rows].
  - reflexivity.
  - cbn [while_next]. destruct (q_next_fresh_cons x rows) as [-> ->].
    rewrite (while_next_on_row (x :: rows) rows 0); cbn in *;
      auto; lia.
Qed.

(** More fuel than [loop_fuel] changes nothing: the loop has ended. *)
Lemma while_next_fuel rows (extra : nat) acc :
  fst (while_next (loop_fuel (fresh rows) + extra) body (fresh rows) acc)
  = fst (while_next (loop_fuel (fresh rows)) body (fresh rows) acc).
Proof.
  rewrite !while_next_fresh; unfold loop_fuel; cbn [result fresh];
    auto; lia.
Qed.
End While.
End CursorFacts.

(* ================================================================== *)
(** * Facts about the Qt values *)
(* ================================================================== *)

Lemma to_int_proper (n : Z) :
  Z.to_int n <> Decimal.Pos Decimal.Nil
  /\ Z.to_int n <> Decimal.Neg Decimal.Nil.
Proof.
  destruct n as [|p|p]; cbn; split; try discriminate;
    intros [= H]; now apply (DecimalPos.Unsigned.to_uint_nonnil p).
Qed.

(** Two numbers with the same rendering are the same number. *)
Lemma QString_number_inj (a b : Z) :
  QString_number a = QString_number b -> a = b.
Proof.
  unfold QString_number. intros H.
  apply DecimalZ.to_int_inj.
  destruct (to_int_proper a) as [Ha1 Ha2], (to_int_proper b) as [Hb1 Hb2].
  pose proof (NilZero.isi _ Ha1 Ha2) as Ia.
  pose proof (NilZero.isi _ Hb1 Hb2) as Ib.
  rewrite H in Ia. congruence.
Qed.

Lemma QString_number_eqb (a b : Z) :
  String.eqb (QString_number a) (QString_number b) = Z.eqb a b.
Proof.
  destruct (Z.eqb_spec a b) as [->|N].
  - apply String.eqb_refl.
  - apply String.eqb_neq. intros H. now apply N, QString_number_inj.
Qed.

Lemma string_of_uint_head (d : Decimal.uint) :
  d <> Decimal.Nil ->
  exists a rest, NilEmpty.string_of_uint d = String a rest
                 /\ Ascii.eqb a "," = false.
Proof.
  destruct d; intros H; try congruence; cbn; eexists _, _; split;
    reflexivity.
Qed.

(** A rendered number is not empty and does not begin with a comma. *)
Lemma QString_number_head (n : Z) :
  exists a rest, QString_number n = String a rest /\ Ascii.eqb a "," = false.
Proof.
  unfold QString_number.
  destruct n as [|p|p]; cbn [Z.to_int NilZero.string_of_int].
  - now exists "0"%char, EmptyString.
  - pose proof (DecimalPos.Unsigned.to_uint_nonnil p) as H.
    unfold NilZero.string_of_uint.
    destruct (string_of_uint_head _ H) as (a & rest & E & Ha).
    destruct (Pos.to_uint p); try congruence; now exists a, rest.
  - now exists "-"%char, (NilZero.string_of_uint (Pos.to_uint p)).
Qed.

(** A bound string selects the columns that hold it, and none when it is
    null. *)
Lemma sql_eqb_eq (column bound : QString) :
  sql_eqb column bound = true <-> column = bound /\ bound <> QString_null.
Proof.
  destruct column as [|a], bound as [|b]; cbn [sql_eqb];
    try (split; [discriminate|intros [H N]; congruence]).
  rewrite String.eqb_eq. split.
  - intros ->. split; [reflexivity|discriminate].
  - intros [[= ->] _]. reflexivity.
Qed.

Lemma sql_eqb_refl (q : QString) :
  q <> QString_null -> sql_eqb q q = true.
Proof. intros N. now apply sql_eqb_eq. Qed.

Lemma sql_eqb_null (column : QString) : sql_eqb column QString_null = false.
Proof. now destruct column. Qed.

Lemma QString_eqb_refl (q : QString) : QString_eqb q q = true.
Proof. apply String.eqb_refl. Qed.

Lemma QString_eqb_chars (a b : QString) :
  QString_eqb a b = true <-> chars a = chars b.
Proof. apply String.eqb_eq. Qed.

Lemma not_null_iff (q : QString) : not_null q = true <-> q <> QString_null.
Proof. destruct q; cbn; split; congruence. Qed.

(* ================================================================== *)
(** * Facts about lists and strings *)
(* ================================================================== *)

Lemma length_filter_pos {A : Type} (f : A -> bool) (l : list A) :
  (0 <? Z.of_nat (List.length (filter f l))) = existsb f l.
Proof.
  induction l as [|a l IH]; cbn [filter existsb]; [reflexivity|].
  destruct (f a); cbn [orb List.length]; [|exact IH].
  apply Z.ltb_lt. lia.
Qed.

Lemma length_map_filter_pos {A B : Type} (g : A -> B) (f : A -> bool)
    (l : list A) :
  (0 <? Z.of_nat (List.length (map g (filter f l)))) = existsb f l.
Proof. rewrite length_map. apply length_filter_pos. Qed.

Lemma existsb_filter_nil {A : Type} (f : A -> bool) (l : list A) :
  existsb f l = false -> filter f l = [].
Proof.
  induction l as [|a l IH]; cbn; [reflexivity|].
  destruct (f a); cbn; [discriminate|exact IH].
Qed.

Lemma last_cons_default {A : Type} (l : list A) (x a : A) :
  last (x :: l) a = last l x.
Proof.
  revert x a. induction l as [|y l IH]; intros x a; [reflexivity|].
  change (last (x :: y :: l) a) with (last (y :: l) a).
  now rewrite !IH.
Qed.

Lemma fold_left_keep_last {A : Type} (l : list A) (a : A) :
  fold_left (fun _ r => r) l a = last l a.
Proof.
  revert a. induction l as [|x l IH]; intros a; [reflexivity|].
  cbn [fold_left]. now rewrite IH, last_cons_default.
Qed.

Lemma fold_left_append {A B : Type} (g : A -> B) (l : list A) (acc : list B) :
  fold_left (fun vec r => vec ++ [g r]) l acc = acc ++ map g l.
Proof.
  revert acc. induction l as [|x l IH]; intros acc; cbn.
  - now rewrite app_nil_r.
  - rewrite IH, <- app_assoc. reflexivity.
Qed.

Lemma existsb_filter_neg {A : Type} (f : A -> bool) (l : list A) :
  existsb f (filter (fun r => negb (f r)) l) = false.
Proof.
  induction l as [|a l IH]; cbn; [reflexivity|].
  destruct (f a) eqn:E; cbn; [exact IH|]. now rewrite E, IH.
Qed.

(* ================================================================== *)
(** * What each member function computes *)
(* ================================================================== *)

(** Each lemma gives a member function in closed form, for every database
    and every schedule of store failures. *)

Lemma exec_select_eq {R : Type} (sel : Database -> list R) (w : World) :
  exec_select sel w
  = (if next_runs w then (true, fresh (sel (db w)))
     else (false, mkQuery false [] BeforeFirstRow), tick w).
Proof.
  unfold exec_select, bind, store_runs, next_runs, tick.
  destruct (hd true (schedule w)); reflexivity.
Qed.

Lemma exec_update_eq (stmt : Database -> option Database) (w : World) :
  exec_update stmt w
  = if next_runs w then
      match stmt (db w) with
      | Some d' => (true, mkWorld d' (tl (schedule w)))
      | None => (false, tick w)
      end
    else (false, tick w).
Proof.
  unfold exec_update, bind, store_runs, next_runs, tick.
  destruct (hd true (schedule w)); reflexivity.
Qed.

Lemma userExists_eq (u : QString) (w : World) :
  userExists u w = (next_runs w && has_user u (db w), tick w).
Proof.
  unfold userExists, bind. rewrite exec_select_eq.
  destruct (next_runs w); cbn [andb]; [|reflexivity].
  rewrite sqlSize_fresh. unfold SELECT_username_FROM_userinfo.
  rewrite length_map_filter_pos. unfold has_user.
  now destruct (existsb _ _).
Qed.

Lemma chatExists_eq (c : Z) (w : World) :
  chatExists c w = (next_runs w && has_chat c (db w), tick w).
Proof.
  unfold chatExists, bind. rewrite exec_select_eq.
  destruct (next_runs w); cbn [andb]; [|reflexivity].
  rewrite sqlSize_fresh. unfold SELECT_FROM_chats.
  rewrite length_filter_pos. unfold has_chat.
  now destruct (existsb _ _).
Qed.

Lemma checkUserInfo_eq (u p : QString) (w : World) :
  checkUserInfo u p w
  = if next_runs w && has_user u (db w)
    then (next_runs (tick w) && existsb (matches u p) (userinfo (db w)),
          tick (tick w))
    else (false, tick w).
Proof.
  unfold checkUserInfo, bind. rewrite userExists_eq.
  destruct (next_runs w && has_user u (db w)); cbn [negb]; [|reflexivity].
  rewrite exec_select_eq.
  destruct (next_runs (tick w)); cbn [andb negb]; [|reflexivity].
  rewrite sqlSize_fresh. unfold SELECT_FROM_userinfo.
  rewrite length_filter_pos. cbn [db tick].
  now destruct (existsb _ _).
Qed.

Lemma getChatOwner_eq (c : Z) (w : World) :
  getChatOwner c w
  = if next_runs w && has_chat c (db w)
    then (if next_runs (tick w)
          then last (SELECT_owner_FROM_chats c (db w)) QString_null
          else QString_null, tick (tick w))
    else (QString_null, tick w).
Proof.
  unfold getChatOwner, bind. rewrite chatExists_eq.
  destruct (next_runs w && has_chat c (db w)); cbn [negb]; [|reflexivity].
  rewrite exec_select_eq.
  destruct (next_runs (tick w)); cbn [negb]; [|reflexivity].
  rewrite sqlSize_fresh. cbn [db tick].
  destruct (0 <? _) eqn:E; unfold ret; f_equal.
  - rewrite while_next_fresh by (unfold loop_fuel; cbn; lia).
    apply (fold_left_keep_last (SELECT_owner_FROM_chats c (db w))).
  - apply Z.ltb_ge in E.
    destruct (SELECT_owner_FROM_chats c (db w)); [reflexivity|cbn in E; lia].
Qed.

Lemma getChatUsers_eq (c : Z) (w : World) :
  getChatUsers c w
  = if next_runs w && has_chat c (db w)
    then (if next_runs (tick w)
          then SELECT_username_FROM_chatusers c (db w) else [],
          tick (tick w))
    else ([], tick w).
Proof.
  unfold getChatUsers, bind. rewrite chatExists_eq.
  destruct (next_runs w && has_chat c (db w)); cbn [negb]; [|reflexivity].
  rewrite exec_select_eq.
  destruct (next_runs (tick w)); cbn [negb]; [|reflexivity].
  rewrite sqlSize_fresh. cbn [db tick].
  destruct (0 <? _) eqn:E; unfold ret; f_equal.
  - rewrite while_next_fresh by (unfold loop_fuel; cbn; lia).
    unfold loop_step.
    rewrite (fold_left_append (fun r => toString_text (Some r))).
    cbn [app toString_text]. apply map_id.
  - apply Z.ltb_ge in E.
    destruct (SELECT_username_FROM_chatusers c (db w));
      [reflexivity|cbn in E; lia].
Qed.

Lemma getChatsUserIsIn_eq (u : QString) (w : World) :
  getChatsUserIsIn u w
  = if next_runs w && has_user u (db w)
    then (if next_runs (tick w)
          then map int_wrap (SELECT_chatid_FROM_chatusers u (db w)) else [],
          tick (tick w))
    else ([], tick w).
Proof.
  unfold getChatsUserIsIn, bind. rewrite userExists_eq.
  destruct (next_runs w && has_user u (db w)); cbn [negb]; [|reflexivity].
  rewrite exec_select_eq.
  destruct (next_runs (tick w)); cbn [negb]; [|reflexivity].
  rewrite sqlSize_fresh. cbn [db tick].
  destruct (0 <? _) eqn:E; unfold ret; f_equal.
  - rewrite while_next_fresh by (unfold loop_fuel; cbn; lia).
    unfold loop_step.
    rewrite (fold_left_append (fun r => toInt (Some r))).
    reflexivity.
  - apply Z.ltb_ge in E.
    destruct (SELECT_chatid_FROM_chatusers u (db w));
      [reflexivity|cbn in E; lia].
Qed.

(** ** The nested scan of [doUsersChat] *)

Lemma existsb_pointwise {A : Type} (f g : A -> bool) (l : list A) :
  (forall a, f a = g a) -> existsb f l = existsb g l.
Proof.
  intros E. induction l as [|a l IH]; cbn; [reflexivity|].
  now rewrite E, IH.
Qed.

Lemma doUsersChat_inner_on_row (rows2 : list Z) (v1 : QString) :
  forall (rest : list Z) (k fuel : nat),
    skipn (S k) rows2 = rest ->
    (k < List.length rows2)%nat ->
    (List.length rest < fuel)%nat ->
    fst (doUsersChat_inner fuel v1 (on_row rows2 k))
    = existsb (renders_like v1) rest
    /\ (existsb (renders_like v1) rest = false ->
        snd (doUsersChat_inner fuel v1 (on_row rows2 k)) = spent rows2).
Proof.
  induction rest as [|x rest IH]; intros k fuel Hs Hk Hf.
  - apply skipn_nil_inv in Hs.
    destruct fuel as [|fuel]; [cbn in Hf; lia|].
    cbn [doUsersChat_inner]. rewrite q_next_on_row_last by lia. now split.
  - destruct (skipn_cons_inv _ _ _ _ Hs) as (Hn & Hs' & Hlt).
    destruct fuel as [|fuel]; [cbn in Hf; lia|].
    cbn [doUsersChat_inner existsb].
    destruct (q_next_on_row_more rows2 k x Hn) as [-> ->].
    cbn [toString_int]. fold (renders_like v1 x).
    destruct (renders_like v1 x); cbn [orb fst snd].
    + split; [reflexivity|discriminate].
    + apply IH; auto. cbn in Hf. lia.
Qed.

(** The first round of the outer loop looks at every row of [query2]; a
    round without a match leaves [query2] after its last row. *)
Lemma doUsersChat_inner_fresh (x : Z) (rows2 : list Z) (v1 : QString)
    (fuel : nat) :
  let q2 := fresh (x :: rows2) in
  (List.length (x :: rows2) < fuel)%nat ->
  fst (doUsersChat_inner fuel v1 q2)
  = existsb (renders_like v1) (x :: rows2)
  /\ (existsb (renders_like v1) (x :: rows2) = false ->
      snd (doUsersChat_inner fuel v1 q2) = spent (x :: rows2)).
Proof.
  cbn zeta. intros Hfuel. destruct fuel as [|fuel]; [lia|].
  cbn [doUsersChat_inner existsb].
  destruct (q_next_fresh_cons x rows2) as [-> ->].
  cbn [toString_int]. fold (renders_like v1 x).
  destruct (renders_like v1 x); cbn [orb fst snd].
  - split; [reflexivity|discriminate].
  - apply doUsersChat_inner_on_row; cbn in *; auto; lia.
Qed.

(** Once [query2] is after its last row, no later round finds anything. *)
Lemma doUsersChat_outer_spent (rows2 : list Z) :
  forall (fuel : nat) (query1 : QSqlQuery Z),
    doUsersChat_outer fuel query1 (spent rows2) = false.
Proof.
  induction fuel as [|fuel IH]; intros query1; [reflexivity|].
  cbn [doUsersChat_outer]. destruct (q_next query1) as [more query1'].
  destruct more; [|reflexivity].
  unfold loop_fuel. cbn [doUsersChat_inner].
  rewrite q_next_spent. apply IH.
Qed.

(** So the whole scan compares the first chat of the first user, and only
    that one, with the chats of the second user; one unit of fuel is all
    the outer loop needs for its answer. *)
Lemma doUsersChat_outer_fresh (c x : Z) (rows1 rows2 : list Z)
    (fuel : nat) :
  doUsersChat_outer (S fuel) (fresh (c :: rows1)) (fresh (x :: rows2))
  = existsb (Z.eqb c) (x :: rows2).
Proof.
  cbn [doUsersChat_outer].
  destruct (q_next_fresh_cons c rows1) as [-> ->].
  cbn [toString_int].
  destruct (doUsersChat_inner_fresh x rows2 (QString_number c)
              (loop_fuel (fresh (x :: rows2)))) as [Hf Hs].
  { unfold loop_fuel. cbn. lia. }
  destruct (doUsersChat_inner _ _ _) as [found q2'].
  cbn [fst snd] in Hf, Hs.
  assert (E : existsb (renders_like (QString_number c)) (x :: rows2)
              = existsb (Z.eqb c) (x :: rows2)).
  { apply existsb_pointwise. intros a. apply QString_number_eqb. }
  rewrite E in Hf, Hs. rewrite <- Hf.
  destruct found; [reflexivity|].
  rewrite Hs by auto. apply doUsersChat_outer_spent.
Qed.

Lemma doUsersChat_eq (u1 u2 : QString) (w : World) :
  doUsersChat u1 u2 w
  = if next_runs w then
      match SELECT_chatid_FROM_chatusers u1 (db w) with
      | [] => (false, tick w)
      | c :: _ =>
          (next_runs (tick w)
           && existsb (Z.eqb c) (SELECT_chatid_FROM_chatusers u2 (db w)),
           tick (tick w))
      end
    else (false, tick w).
Proof.
  unfold doUsersChat, bind. rewrite exec_select_eq.
  destruct (next_runs w); [|reflexivity].
  rewrite sqlSize_fresh.
  destruct (SELECT_chatid_FROM_chatusers u1 (db w)) as [|c rows1];
    [reflexivity|].
  destruct (Z.ltb_spec 0 (Z.of_nat (List.length (c :: rows1))));
    [|cbn in *; lia].
  rewrite exec_select_eq.
  destruct (next_runs (tick w)); cbn [andb]; [|reflexivity].
  rewrite sqlSize_fresh. cbn [db tick].
  destruct (SELECT_chatid_FROM_chatusers u2 (db w)) as [|x rows2];
    [reflexivity|].
  destruct (Z.ltb_spec 0 (Z.of_nat (List.length (x :: rows2))));
    [|cbn in *; lia].
  unfold ret, loop_fuel at 1. now rewrite doUsersChat_outer_fresh.
Qed.

(* ================================================================== *)
(** * Credentials *)
(* ================================================================== *)

Lemma tick_healthy (d : Database) : tick (healthy d) = healthy d.
Proof. reflexivity. Qed.

Lemma userExists_healthy (u : QString) (d : Database) :
  eval (userExists u) (healthy d) = has_user u d.
Proof. unfold eval. now rewrite userExists_eq. Qed.

Lemma chatExists_healthy (c : Z) (d : Database) :
  eval (chatExists c) (healthy d) = has_chat c d.
Proof. unfold eval. now rewrite chatExists_eq. Qed.

Lemma existsb_matches (u p : QString) (l : list (QString * QString)) :
  existsb (matches u p) l = true
  <-> u <> QString_null /\ p <> QString_null /\ In (u, p) l.
Proof.
  rewrite existsb_exists. unfold matches. split.
  - intros ([u' p'] & Hin & H). cbn in H.
    apply andb_true_iff in H as [Hu Hp].
    apply sql_eqb_eq in Hu as [-> Nu], Hp as [-> Np]. auto.
  - intros (Nu & Np & Hin). exists (u, p). cbn.
    now rewrite !sql_eqb_refl.
Qed.

Lemma has_user_In (u p : QString) (d : Database) :
  u <> QString_null -> In (u, p) (userinfo d) -> has_user u d = true.
Proof.
  intros N Hin. unfold has_user. apply existsb_exists.
  exists (u, p). split; [exact Hin|now apply sql_eqb_refl].
Qed.

Lemma has_user_not_null (u : QString) (d : Database) :
  has_user u d = true -> u <> QString_null.
Proof.
  unfold has_user. rewrite existsb_exists. intros (r & _ & H).
  now apply sql_eqb_eq in H.
Qed.

(** C8: without a user of that name [checkUserInfo] answers false, and it
    answers true exactly when neither argument is the null string and
    [userinfo] holds a row whose two columns are the given name and
    password, character for character.  A null argument is bound as
    [NULL], which no column equals. *)
Theorem checkUserInfo_exact_match (username password : QString)
    (d : Database) :
  (eval (userExists username) (healthy d) = false ->
   eval (checkUserInfo username password) (healthy d) = false)
  /\ (eval (checkUserInfo username password) (healthy d) = true
      <-> username <> QString_null /\ password <> QString_null
          /\ In (username, password) (userinfo d)).
Proof.
  rewrite userExists_healthy. unfold eval. rewrite checkUserInfo_eq.
  cbn [next_runs healthy schedule hd db andb tick tl].
  split.
  - intros ->. reflexivity.
  - destruct (has_user username d) eqn:E; cbn [fst].
    + apply existsb_matches.
    + split; [discriminate|].
      intros (N & _ & Hin). apply has_user_In in Hin; congruence.
Qed.

(** C8, as it fails for a null argument: Bob is stored with a null
    password, the row's two columns are the arguments, and the check of
    these very arguments answers false. *)
Lemma checkUserInfo_null_password :
  eval (addUser "Bob" QString_null) (healthy empty_db) = true
  /\ In (text "Bob", QString_null)
        (userinfo (db (exec_ (addUser "Bob" QString_null)
                             (healthy empty_db))))
  /\ eval (checkUserInfo "Bob" QString_null)
        (exec_ (addUser "Bob" QString_null) (healthy empty_db)) = false.
Proof. split; [reflexivity|]. split; [now left|reflexivity]. Qed.

Lemma addUser_eq (u p : QString) (w : World) :
  addUser u p w
  = if next_runs w && has_user u (db w) then (false, tick w)
    else if next_runs (tick w) && negb (has_user u (db w))
    then (true, mkWorld (mkDatabase (foreign_keys (db w))
                           (userinfo (db w) ++ [(u, p)])
                           (chats (db w)) (chatusers (db w)))
                        (tl (tl (schedule w))))
    else (false, tick (tick w)).
Proof.
  unfold addUser, bind. rewrite userExists_eq.
  destruct (next_runs w && has_user u (db w)); [reflexivity|].
  rewrite exec_update_eq. unfold INSERT_INTO_userinfo. cbn [db tick].
  destruct (next_runs (tick w)); cbn [andb]; [|reflexivity].
  now destruct (has_user u (db w)).
Qed.

Lemma has_user_after_insert (u p : QString) (d : Database) :
  u <> QString_null ->
  has_user u (mkDatabase (foreign_keys d) (userinfo d ++ [(u, p)])
                (chats d) (chatusers d)) = true.
Proof.
  intros N. unfold has_user. cbn [userinfo]. rewrite existsb_app. cbn.
  now rewrite sql_eqb_refl, orb_true_r.
Qed.

(** C9: once [addUser u p] has succeeded for a name [u] that is not the
    null string, the user exists with the row [(u, p)]; a second
    [addUser u p2] returns false, whatever the store does, and leaves the
    database as it was, so the user still exists. *)
Theorem addUser_twice (u p p2 : QString) (w w1 : World) :
  u <> QString_null ->
  addUser u p w = (true, w1) ->
  eval (userExists u) (healthy (db w1)) = true
  /\ In (u, p) (userinfo (db w1))
  /\ exists w2 : World,
       addUser u p2 w1 = (false, w2)
       /\ db w2 = db w1
       /\ eval (userExists u) (healthy (db w2)) = true.
Proof.
  intros N. rewrite addUser_eq.
  destruct (next_runs w && has_user u (db w)); [discriminate|].
  destruct (next_runs (tick w) && negb (has_user u (db w)));
    [|discriminate].
  intros [= <-]. cbn [db].
  assert (H : has_user u (mkDatabase (foreign_keys (db w))
                (userinfo (db w) ++ [(u, p)]) (chats (db w))
                (chatusers (db w))) = true)
    by now apply has_user_after_insert.
  rewrite userExists_healthy. split; [exact H|]. split.
  { cbn [userinfo]. apply in_or_app. right. now left. }
  rewrite addUser_eq. cbn [db tick]. rewrite H. cbn [negb].
  rewrite andb_false_r.
  destruct (next_runs _); cbn [andb]; eexists; (split; [reflexivity|]);
    cbn [db tick]; rewrite userExists_healthy; auto.
Qed.

Lemma addUser_twice_witness :
  exists w2 : World,
    addUser "Bob" "another" (exec_ (addUser "Bob" "password1")
                                   (healthy empty_db)) = (false, w2)
    /\ userinfo (db w2) = [(text "Bob", text "password1")].
Proof.
  assert (N : text "Bob" <> QString_null) by discriminate.
  destruct (addUser_twice "Bob" "password1" "another" (healthy empty_db)
              (exec_ (addUser "Bob" "password1") (healthy empty_db))
              N eq_refl) as (_ & _ & w2 & H2 & Hdb & _).
  exists w2. split; [exact H2|]. rewrite Hdb. reflexivity.
Defined.

(** C9, as it fails for the null string: it is bound as [NULL], which
    never clashes with a key, so the second [addUser] succeeds too, and
    [userExists] still answers false. *)
Lemma addUser_null_twice :
  eval (addUser QString_null "password1") (healthy empty_db) = true
  /\ eval (userExists QString_null)
        (exec_ (addUser QString_null "password1") (healthy empty_db)) = false
  /\ eval (addUser QString_null "another")
        (exec_ (addUser QString_null "password1") (healthy empty_db)) = true
  /\ userinfo (db (exec_ (addUser QString_null "another")
                     (exec_ (addUser QString_null "password1")
                            (healthy empty_db))))
     = [(QString_null, text "password1"); (QString_null, text "another")].
Proof. repeat split. Qed.

(* ================================================================== *)
(** * Creating a chat *)
(* ================================================================== *)

Lemma member_inserts_length (chatID : Z) (members : list QString) :
  forall w : World,
    List.length (fst (member_inserts chatID members w))
    = List.length members.
Proof.
  induction members as [|m members IH]; intros w; [reflexivity|].
  cbn [member_inserts]. unfold bind.
  destruct (exec_update _ w) as [ok w1].
  specialize (IH w1). destruct (member_inserts chatID members w1).
  cbn in *. now rewrite IH.
Qed.

(** The loop returns the flag it was given, raised by the outcome of the
    last insert; the outcomes before the last one do not enter. *)
Lemma addChat_loop_last (chatID size : Z) (rest : list QString) :
  forall (i : Z) (success : bool) (w : World),
    i + Z.of_nat (List.length rest) = size ->
    addChat_loop chatID size i rest success w
    = (success || last (fst (member_inserts chatID rest w)) false,
       snd (member_inserts chatID rest w)).
Proof.
  induction rest as [|m rest IH]; intros i success w Hi.
  - cbn. now rewrite orb_false_r.
  - cbn [addChat_loop member_inserts]. unfold bind.
    pose proof (member_inserts_length chatID rest) as Hlen.
    destruct (exec_update _ w) as [ok w1].
    rewrite IH by (cbn [List.length] in Hi; lia).
    specialize (Hlen w1).
    destruct (member_inserts chatID rest w1) as [oks w2].
    cbn [fst snd ret] in *. f_equal.
    destruct rest as [|m' rest].
    + destruct oks; [|discriminate]. cbn [List.length] in Hi.
      replace (i =? size - 1) with true by (symmetry; apply Z.eqb_eq; lia).
      destruct ok, success; reflexivity.
    + destruct oks as [|ok' oks]; [discriminate|].
      replace (i =? size - 1) with false
        by (symmetry; apply Z.eqb_neq; cbn [List.length] in Hi; lia).
      change (last (ok :: ok' :: oks) false) with (last (ok' :: oks) false).
      now destruct ok.
Qed.

(** C1: when the chat is new, the owner exists and the chat row goes in,
    [addChat] with a non-empty member list returns the outcome of the insert
    of the last member: the outcomes of the earlier inserts play no part. *)
Theorem addChat_reports_last_insert (chatID : Z) (owner : QString)
    (members : list QString) (w w1 w2 w3 : World) :
  chatExists chatID w = (false, w1) ->
  userExists owner w1 = (true, w2) ->
  exec_update (INSERT_INTO_chats chatID owner) w2 = (true, w3) ->
  members <> [] ->
  addChat chatID owner members w
  = (last (fst (member_inserts chatID members w3)) false,
     snd (member_inserts chatID members w3)).
Proof.
  intros Hc Hu Hi _. unfold addChat, bind.
  rewrite Hc, Hu. cbn [negb]. rewrite Hi. cbn [negb].
  now rewrite addChat_loop_last by lia.
Qed.

(** The store fails the insert of Bob and runs the insert of Fred: true.
    It runs the insert of Bob and fails the insert of Fred: false. *)
Lemma addChat_reports_last_insert_witness :
  eval (addChat 1 "Bob" [text "Bob"; text "Fred"])
       (mkWorld (db demo_users) [true; true; true; false; true]) = true
  /\ eval (addChat 1 "Bob" [text "Bob"; text "Fred"])
          (mkWorld (db demo_users) [true; true; true; true; false]) = false.
Proof.
  split.
  - unfold eval.
    rewrite (addChat_reports_last_insert 1 "Bob" [text "Bob"; text "Fred"]
               (mkWorld (db demo_users) [true; true; true; false; true])
               _ _ _ eq_refl eq_refl eq_refl); [reflexivity|discriminate].
  - unfold eval.
    rewrite (addChat_reports_last_insert 1 "Bob" [text "Bob"; text "Fred"]
               (mkWorld (db demo_users) [true; true; true; true; false])
               _ _ _ eq_refl eq_refl eq_refl); [reflexivity|discriminate].
Defined.

Lemma has_chat_after_insert (c : Z) (o : QString) (d : Database) :
  has_chat c (mkDatabase (foreign_keys d) (userinfo d) (chats d ++ [(c, o)])
                (chatusers d)) = true.
Proof.
  unfold has_chat. cbn [chats]. rewrite existsb_app. cbn.
  now rewrite Z.eqb_refl, orb_true_r.
Qed.

(** C6: when the chat already exists or the owner is no user, [addChat]
    returns false and the database is as before, whatever the store does. *)
Theorem addChat_rejected_writes_nothing (chatID : Z) (owner : QString)
    (members : list QString) (w : World) :
  has_chat chatID (db w) = true \/ has_user owner (db w) = false ->
  exists w' : World,
    addChat chatID owner members w = (false, w') /\ db w' = db w.
Proof.
  intros H. unfold addChat, bind. rewrite chatExists_eq.
  destruct (next_runs w && has_chat chatID (db w)) eqn:E1.
  { eexists. split; reflexivity. }
  rewrite userExists_eq. cbn [db tick].
  destruct (next_runs (tick w) && has_user owner (db w)) eqn:E2;
    cbn [negb].
  2:{ eexists. split; reflexivity. }
  apply andb_true_iff in E2 as [_ E2].
  destruct H as [H|H]; [|congruence].
  rewrite exec_update_eq. unfold INSERT_INTO_chats. cbn [db tick].
  rewrite H.
  destruct owner, (next_runs (tick (tick w))); cbn [negb]; eexists; split;
    reflexivity.
Qed.

Lemma addChat_rejected_writes_nothing_witness :
  exists w' : World,
    addChat 1 "Nick" chat1 demo_users = (false, w')
    /\ db w' = db demo_users.
Proof.
  apply (addChat_rejected_writes_nothing 1 "Nick" chat1 demo_users).
  right. reflexivity.
Defined.

(** C7: for a new chat and an existing owner, [addChat] with no members
    inserts the chat row, so that [chatExists] holds afterwards, and yet
    returns false. *)
Theorem addChat_no_members (chatID : Z) (owner : QString) (d : Database) :
  eval (chatExists chatID) (healthy d) = false ->
  eval (userExists owner) (healthy d) = true ->
  exists w' : World,
    addChat chatID owner [] (healthy d) = (false, w')
    /\ In (chatID, owner) (chats (db w'))
    /\ eval (chatExists chatID) w' = true.
Proof.
  rewrite chatExists_healthy, userExists_healthy. intros Hc Hu.
  unfold addChat, bind. rewrite chatExists_eq, tick_healthy.
  cbn [next_runs healthy schedule hd db andb]. rewrite Hc.
  rewrite userExists_eq.
  cbn [next_runs healthy schedule hd db andb tick tl]. rewrite Hu.
  cbn [negb]. rewrite exec_update_eq. unfold INSERT_INTO_chats.
  cbn [next_runs healthy schedule hd db andb tick tl]. rewrite Hc, Hu.
  destruct owner as [|name]; [now apply has_user_not_null in Hu|].
  cbn [negb]. rewrite andb_false_r. cbn [negb addChat_loop ret].
  eexists. split; [reflexivity|]. cbn [db]. split.
  - cbn [chats]. apply in_or_app. right. now left.
  - unfold eval. rewrite chatExists_eq. cbn [fst db next_runs schedule hd].
    apply has_chat_after_insert.
Qed.

Lemma addChat_no_members_witness :
  exists w' : World,
    addChat 7 "Rick" [] (healthy (db demo_users)) = (false, w')
    /\ In (7, text "Rick") (chats (db w'))
    /\ eval (chatExists 7) w' = true.
Proof.
  apply (addChat_no_members 7 "Rick" (db demo_users)); reflexivity.
Defined.

(* ================================================================== *)
(** * Removing a chat *)
(* ================================================================== *)

Lemma three_statements_run (w : World) :
  statements_run 3 w = true ->
  next_runs w = true /\ next_runs (tick w) = true
  /\ next_runs (tick (tick w)) = true
  /\ tick (tick (tick w)) = after_statements 3 w.
Proof.
  destruct w as [d s]. unfold statements_run, next_runs, tick,
    after_statements. cbn [schedule db].
  destruct s as [|b1 [|b2 [|b3 s]]]; cbn;
    repeat match goal with b : bool |- _ => destruct b end;
    cbn; intros H; try discriminate; repeat split.
Qed.

Lemma getChatOwner_healthy (c : Z) (d : Database) :
  has_chat c d = true ->
  eval (getChatOwner c) (healthy d)
  = last (SELECT_owner_FROM_chats c d) QString_null.
Proof.
  intros H. unfold eval. rewrite getChatOwner_eq.
  cbn [next_runs healthy schedule hd db andb tick tl]. now rewrite H.
Qed.

Lemma has_chat_after_delete (c : Z) (d d' : Database) :
  DELETE_FROM_chats c d = Some d' ->
  has_chat c d' = false /\ chatusers d' = chatusers d.
Proof.
  unfold DELETE_FROM_chats.
  destruct (foreign_keys d && has_member_row c d); [discriminate|].
  intros [= <-]. split; [|reflexivity].
  unfold has_chat. cbn [chats].
  apply (existsb_filter_neg (fun r => fst r =? c)).
Qed.

Lemma exec_update_true (stmt : Database -> option Database) (w w' : World) :
  exec_update stmt w = (true, w') -> stmt (db w) = Some (db w').
Proof.
  rewrite exec_update_eq. destruct (next_runs w); [|discriminate].
  destruct (stmt (db w)); [|discriminate]. now intros [= <-].
Qed.

(** Take a chat that exists and whose recorded owner is [A], and a call
    whose three reads the store lets run.  A request under a name with other
    characters than [A]'s returns false and changes no table.  A request by
    [A], when both deletes succeed, returns true; afterwards the chat does
    not exist, no membership row names it, and [getChatUsers] returns
    nothing. *)
Lemma removeChat_owner_only (id : Z) (A B : QString) (w : World) :
  eval (chatExists id) (healthy (db w)) = true ->
  eval (getChatOwner id) (healthy (db w)) = A ->
  statements_run 3 w = true ->
  (chars B <> chars A ->
   removeChat id B w = (false, after_statements 3 w)
   /\ eval (chatExists id) (healthy (db (after_statements 3 w))) = true
   /\ chatusers (db (after_statements 3 w)) = chatusers (db w))
  /\ (forall w4 w5 : World,
        exec_update (DELETE_FROM_chats id) (after_statements 3 w)
        = (true, w4) ->
        exec_update (DELETE_FROM_chatusers id) w4 = (true, w5) ->
        removeChat id A w = (true, w5)
        /\ eval (chatExists id) w5 = false
        /\ has_member_row id (db w5) = false
        /\ eval (getChatUsers id) w5 = []).
Proof.
  rewrite chatExists_healthy. intros Hc Ho Hr.
  rewrite (getChatOwner_healthy _ _ Hc) in Ho.
  destruct (three_statements_run w Hr) as (R1 & R2 & R3 & T3).
  assert (Hrun : forall u : QString,
    removeChat id u w
    = if QString_eqb A u then
        (let (ok, w4) := exec_update (DELETE_FROM_chats id)
                           (after_statements 3 w) in
         if negb ok then (false, w4)
         else let (ok1, w5) := exec_update (DELETE_FROM_chatusers id) w4 in
              if negb ok1 then (false, w5) else (true, w5))
      else (false, after_statements 3 w)).
  { intros u. unfold removeChat, bind.
    rewrite chatExists_eq, R1, Hc. cbn [andb].
    rewrite getChatOwner_eq, R2. cbn [db tick andb]. rewrite Hc, R3, Ho.
    rewrite T3. destruct (QString_eqb A u); [|reflexivity].
    destruct (exec_update _ _) as [ok w4]. destruct ok; cbn [negb];
      [|reflexivity].
    destruct (exec_update _ _) as [ok1 w5]. now destruct ok1. }
  split.
  - intros HB. rewrite Hrun.
    replace (QString_eqb A B) with false
      by (symmetry; apply String.eqb_neq; congruence).
    cbn [after_statements db]. rewrite chatExists_healthy. auto.
  - intros w4 w5 H4 H5. rewrite Hrun, QString_eqb_refl, H4. cbn [negb].
    rewrite H5. cbn [negb].
    apply exec_update_true in H4, H5. cbn [after_statements db] in H4.
    apply has_chat_after_delete in H4 as [Hno _].
    unfold DELETE_FROM_chatusers in H5. injection H5 as H5.
    assert (Hc5 : has_chat id (db w5) = false)
      by (rewrite <- H5; exact Hno).
    assert (Hm5 : has_member_row id (db w5) = false).
    { rewrite <- H5. unfold has_member_row. cbn [chatusers].
      apply (existsb_filter_neg (fun r => fst r =? id)). }
    unfold eval. rewrite chatExists_eq, getChatUsers_eq, Hc5.
    rewrite andb_false_r. auto.
Qed.

(** X18: a requester with a name of at least one character who is not the
    owner is turned away whatever the store does: a failed read can only
    make [chatOwner] the null string. *)
Lemma removeChat_stranger_any_schedule (id : Z) (A B : QString) (w : World) :
  eval (getChatOwner id) (healthy (db w)) = A ->
  chars B <> chars A -> chars B <> EmptyString ->
  exists w' : World, removeChat id B w = (false, w') /\ db w' = db w.
Proof.
  intros Ho HA Hnull. unfold removeChat, bind. rewrite chatExists_eq.
  destruct (next_runs w && has_chat id (db w)) eqn:E;
    [|eexists; split; reflexivity].
  apply andb_true_iff in E as [_ Hc].
  rewrite (getChatOwner_healthy _ _ Hc) in Ho.
  rewrite getChatOwner_eq. cbn [db tick]. rewrite Hc, Ho.
  assert (EA : QString_eqb A B = false)
    by (apply String.eqb_neq; congruence).
  assert (EN : QString_eqb QString_null B = false)
    by (apply String.eqb_neq; cbn [chars]; congruence).
  destruct (next_runs (tick w)); cbn [andb];
    [destruct (next_runs (tick (tick w)))|];
    rewrite ?EA, ?EN; eexists; split; reflexivity.
Qed.

(** With the pragma on, SQLite refuses to delete a chat row that membership
    rows refer to, so [removeChat] cannot remove a chat that has members:
    the demonstration of main.cpp, which removes chat 1 with its three
    members, runs as its comments say only with the pragma off. *)
Lemma removeChat_refused_under_foreign_keys (id : Z) (u : QString)
    (w : World) :
  foreign_keys (db w) = true ->
  has_member_row id (db w) = true ->
  exists w' : World, removeChat id u w = (false, w') /\ db w' = db w.
Proof.
  intros Hfk Hm. unfold removeChat, bind. rewrite chatExists_eq.
  destruct (next_runs w && has_chat id (db w));
    [|eexists; split; reflexivity].
  rewrite getChatOwner_eq. cbn [db tick].
  assert (Hdel : forall w0 : World, db w0 = db w ->
    exec_update (DELETE_FROM_chats id) w0 = (false, tick w0)).
  { intros w0 H0. rewrite exec_update_eq. unfold DELETE_FROM_chats.
    rewrite H0, Hfk, Hm. cbn [andb]. now destruct (next_runs w0). }
  destruct (next_runs (tick w) && has_chat id (db w));
    (destruct (QString_eqb _ u); [|eexists; split; reflexivity]);
    rewrite Hdel by reflexivity; eexists; split; reflexivity.
Qed.

(** C5: the owner's gate can be passed by somebody else.  Chat 1 of the
    demonstration is Bob's.  When the store runs the two existence checks
    and fails the owner lookup, [getChatOwner] returns the null string,
    which [removeChat] compares with the requester: the request under the
    empty name, which is not Bob's, returns true, and the chat and its
    membership rows are deleted just as by Bob's own request. *)
Theorem removeChat_owner_lookup_failed :
  eval (chatExists 1) demo_chats = true
  /\ eval (getChatOwner 1) demo_chats = text "Bob"
  /\ removeChat 1 "" (mkWorld (db demo_chats) [true; true; false])
     = (true, exec_ (removeChat 1 "Bob") demo_chats)
  /\ eval (chatExists 1) (exec_ (removeChat 1 "Bob") demo_chats) = false
  /\ has_member_row 1 (db (exec_ (removeChat 1 "Bob") demo_chats)) = false.
Proof. repeat (split; [reflexivity|]). reflexivity. Qed.

(* ================================================================== *)
(** * Do two users chat? *)
(* ================================================================== *)

(** Without store failures [doUsersChat] answers whether the first chat of
    the first user is among the chats of the second user. *)
Lemma doUsersChat_healthy (u1 u2 : QString) (d : Database) :
  eval (doUsersChat u1 u2) (healthy d)
  = match SELECT_chatid_FROM_chatusers u1 d with
    | [] => false
    | c :: _ => existsb (Z.eqb c) (SELECT_chatid_FROM_chatusers u2 d)
    end.
Proof.
  unfold eval. rewrite doUsersChat_eq.
  cbn [next_runs healthy schedule hd db andb tick tl].
  now destruct (SELECT_chatid_FROM_chatusers u1 d).
Qed.

Lemma In_SELECT_chatid (c : Z) (u : QString) (d : Database) :
  In c (SELECT_chatid_FROM_chatusers u d)
  <-> u <> QString_null /\ In (c, u) (chatusers d).
Proof.
  unfold SELECT_chatid_FROM_chatusers. rewrite in_map_iff. split.
  - intros ([c' u'] & E & Hin). apply filter_In in Hin as [Hin Hu].
    cbn in E, Hu. apply sql_eqb_eq in Hu as [-> N]. now subst.
  - intros [N Hin]. exists (c, u). split; [reflexivity|].
    apply filter_In. split; [exact Hin|now apply sql_eqb_refl].
Qed.

(** A true answer is always right: the two users do share a chat. *)
Lemma doUsersChat_sound (u1 u2 : QString) (d : Database) :
  eval (doUsersChat u1 u2) (healthy d) = true -> share_a_chat u1 u2 d.
Proof.
  rewrite doUsersChat_healthy.
  destruct (SELECT_chatid_FROM_chatusers u1 d) as [|c rows] eqn:E;
    [discriminate|].
  intros H. apply existsb_exists in H as (c' & Hin & Hc).
  apply Z.eqb_eq in Hc. subst c'. exists c. split.
  - apply In_SELECT_chatid. rewrite E. now left.
  - now apply In_SELECT_chatid.
Qed.

(** A user without membership rows, on either side, gives false. *)
Lemma doUsersChat_no_rows (u1 u2 : QString) (d : Database) :
  SELECT_chatid_FROM_chatusers u1 d = []
  \/ SELECT_chatid_FROM_chatusers u2 d = [] ->
  eval (doUsersChat u1 u2) (healthy d) = false.
Proof.
  rewrite doUsersChat_healthy. intros [-> | ->]; [reflexivity|].
  now destruct (SELECT_chatid_FROM_chatusers u1 d).
Qed.

(** C2: [doUsersChat] is not symmetric.  Bob is in chats 1 and 2, Fred in
    chat 2: asked about Bob and Fred the scan uses up Fred's rows against
    chat 1 and answers false; asked about Fred and Bob it answers true. *)
Theorem doUsersChat_asymmetric :
  eval (doUsersChat "Bob" "Fred") two_chats = false
  /\ eval (doUsersChat "Fred" "Bob") two_chats = true.
Proof. split; reflexivity. Qed.

(** C3: [doUsersChat] can answer false for two users who share a chat.  In
    [two_chats] Bob and Fred both have a membership row of chat 2. *)
Theorem doUsersChat_misses_shared_chat :
  share_a_chat "Bob" "Fred" (db two_chats)
  /\ eval (doUsersChat "Bob" "Fred") two_chats = false.
Proof.
  split; [|reflexivity].
  exists 2. split; cbn; auto.
Qed.

(* ================================================================== *)
(** * The chat summary of a user *)
(* ================================================================== *)

Local Open Scope string_scope.

Lemma append_nil_r (s : string) : s ++ "" = s.
Proof. induction s as [|a s IH]; cbn; [reflexivity|now rewrite IH]. Qed.

Lemma append_assoc (a b c : string) : (a ++ b) ++ c = a ++ (b ++ c).
Proof. induction a as [|x a IH]; cbn; [reflexivity|now rewrite IH]. Qed.

Lemma append_nonempty_r (s t : string) : t <> "" -> s ++ t <> "".
Proof. destruct s; cbn; [auto|discriminate]. Qed.

Lemma concat_snoc (sep : string) (l : list string) (a : string) :
  l <> [] ->
  String.concat sep (l ++ [a]) = String.concat sep l ++ sep ++ a.
Proof.
  induction l as [|x l IH]; intros Hl; [congruence|].
  destruct l as [|y l]; [reflexivity|].
  change (String.concat sep ((x :: y :: l) ++ [a]))
    with (x ++ sep ++ String.concat sep ((y :: l) ++ [a])).
  rewrite IH by discriminate.
  change (String.concat sep (x :: y :: l))
    with (x ++ sep ++ String.concat sep (y :: l)).
  now rewrite !append_assoc.
Qed.

(** One pass through the body of the inner loop appends two tokens to the
    comma-joined string. *)
Lemma summary_step (tokens : list string) (a b : string) :
  (((if (flag_after tokens =? 1)%Z then String.concat "," tokens ++ ","
     else String.concat "," tokens) ++ a) ++ ",") ++ b
  = String.concat "," (tokens ++ [a; b]).
Proof.
  destruct tokens as [|t tokens].
  - cbn [flag_after Z.eqb String.concat app]. cbn [append].
    now rewrite append_assoc.
  - change (flag_after (t :: tokens) =? 1)%Z with true. cbv iota.
    replace ((t :: tokens) ++ [a; b])%list
      with (((t :: tokens) ++ [a]) ++ [b])%list
      by (now rewrite <- app_assoc).
    rewrite concat_snoc by (destruct tokens; discriminate).
    rewrite concat_snoc by discriminate.
    now rewrite !append_assoc.
Qed.

(** Appending to a string that is not null gives a string that is not
    null, with the characters of both. *)
Lemma QString_append_text (a : string) (m : QString) :
  QString_append (text a) m = text (a ++ chars m).
Proof. destruct m; cbn; [now rewrite append_nil_r|reflexivity]. Qed.

Lemma summary_step_appends (tokens : list string) (a : string) (m : QString) :
  QString_append
    (QString_append
       (QString_append
          (if (flag_after tokens =? 1)%Z
           then QString_append (text (String.concat "," tokens)) ","
           else text (String.concat "," tokens))
          a) ",") m
  = text (String.concat "," (tokens ++ [a; chars m])).
Proof.
  rewrite <- summary_step.
  destruct (flag_after tokens =? 1)%Z; now rewrite !QString_append_text.
Qed.

Lemma getUserChatInfo_users_join (u : QString) (c : Z)
    (users : list QString) :
  forall tokens : list string,
    getUserChatInfo_users u c users
      (text (String.concat "," tokens), flag_after tokens)
    = (text (String.concat ","
               (tokens ++ flat_map (other_member u c) users)),
       flag_after (tokens ++ flat_map (other_member u c) users)).
Proof.
  induction users as [|m users IH]; intros tokens.
  - cbn. now rewrite app_nil_r.
  - cbn [getUserChatInfo_users flat_map].
    replace (other_member u c m)
      with (if QString_eqb m u then [] else [QString_number c; chars m])
      by reflexivity.
    destruct (QString_eqb m u); cbn [negb app].
    + apply IH.
    + rewrite summary_step_appends.
      replace 1%Z with (flag_after (tokens ++ [QString_number c; chars m]))
        by (now destruct tokens).
      rewrite IH, <- app_assoc. reflexivity.
Qed.

Lemma getChatUsers_world (c : Z) (d : Database) :
  getChatUsers c (healthy d) = (eval (getChatUsers c) (healthy d), healthy d).
Proof.
  unfold eval. rewrite getChatUsers_eq.
  cbn [next_runs healthy schedule hd db andb tick tl].
  now destruct (has_chat c d).
Qed.

Lemma getChatsUserIsIn_world (u : QString) (d : Database) :
  getChatsUserIsIn u (healthy d)
  = (eval (getChatsUserIsIn u) (healthy d), healthy d).
Proof.
  unfold eval. rewrite getChatsUserIsIn_eq.
  cbn [next_runs healthy schedule hd db andb tick tl].
  now destruct (has_user u d).
Qed.

Lemma getUserChatInfo_chats_join (u : QString) (d : Database)
    (ids : list Z) :
  forall tokens : list string,
    let added :=
      flat_map (fun c => flat_map (other_member u c)
                           (eval (getChatUsers c) (healthy d))) ids in
    getUserChatInfo_chats u ids
      (text (String.concat "," tokens), flag_after tokens) (healthy d)
    = ((text (String.concat "," (tokens ++ added)),
        flag_after (tokens ++ added)),
       healthy d).
Proof.
  induction ids as [|c ids IH]; intros tokens; cbn zeta.
  - cbn. now rewrite app_nil_r.
  - cbn [getUserChatInfo_chats flat_map]. unfold bind.
    rewrite getChatUsers_world, getUserChatInfo_users_join.
    cbn zeta in IH. rewrite IH, <- app_assoc. reflexivity.
Qed.

(** The summary is the comma-joined token list. *)
Lemma getUserChatInfo_join (u : QString) (d : Database) :
  eval (getUserChatInfo u) (healthy d)
  = text (String.concat "," (summary_tokens u d)).
Proof.
  unfold eval, getUserChatInfo, bind, summary_tokens.
  rewrite getChatsUserIsIn_world.
  destruct (eval (getChatsUserIsIn u) (healthy d)) as [|c ids] eqn:E;
    [reflexivity|].
  pose proof (getUserChatInfo_chats_join u d (c :: ids) []) as H.
  cbn zeta in H. cbn [String.concat flag_after app] in H.
  rewrite H. reflexivity.
Qed.

Lemma summary_tokens_head (u : QString) (d : Database) :
  summary_tokens u d = []
  \/ exists (c : Z) (rest : list string),
       summary_tokens u d = QString_number c :: rest.
Proof.
  unfold summary_tokens.
  induction (eval (getChatsUserIsIn u) (healthy d)) as [|c ids IH];
    [now left|].
  cbn [flat_map].
  induction (eval (getChatUsers c) (healthy d)) as [|m users IHu];
    [exact IH|].
  cbn [flat_map].
  assert (Hm : other_member u c m = []
               \/ other_member u c m = [QString_number c; chars m])
    by (unfold other_member; destruct (QString_eqb m u); auto).
  destruct Hm as [-> | ->]; cbn [app]; [exact IHu|].
  right. eauto.
Qed.

Lemma starts_with_comma_concat (a : ascii) (first : string)
    (rest : list string) :
  Ascii.eqb a "," = false ->
  starts_with_comma (String.concat "," (String a first :: rest)) = false.
Proof. intros H. destruct rest; cbn; exact H. Qed.

Lemma ends_with_comma_append (s t : string) :
  t <> "" -> ends_with_comma (s ++ t) = ends_with_comma t.
Proof.
  intros Ht. induction s as [|a s IH]; [reflexivity|].
  cbn [append ends_with_comma].
  pose proof (append_nonempty_r s t Ht) as Hne.
  destruct (s ++ t); [congruence|exact IH].
Qed.

Lemma concat_nonempty (l : list string) :
  last l "" <> "" -> String.concat "," l <> "".
Proof.
  destruct l as [|x [|y l]]; cbn [last String.concat]; auto.
  intros _. apply append_nonempty_r. discriminate.
Qed.

(** A joined string ends like its last token, when that token is not
    empty. *)
Lemma ends_with_comma_concat (l : list string) :
  last l "" <> "" ->
  ends_with_comma (String.concat "," l) = ends_with_comma (last l "").
Proof.
  induction l as [|x l IH]; intros Hl; [reflexivity|].
  destruct l as [|y l]; [reflexivity|].
  change (last (x :: y :: l) "") with (last (y :: l) "") in Hl |- *.
  change (String.concat "," (x :: y :: l))
    with (x ++ String "," (String.concat "," (y :: l))).
  rewrite ends_with_comma_append by discriminate.
  pose proof (concat_nonempty (y :: l) Hl) as Hne.
  rewrite <- IH by exact Hl.
  cbn [ends_with_comma].
  destruct (String.concat "," (y :: l)); [congruence|reflexivity].
Qed.

(** C10, as amended: the summary is the token list joined by commas, the
    tokens being, chat by chat in [getChatsUserIsIn] order and member by
    member in [getChatUsers] order, the chat number and each member other
    than the user.  It never begins with a comma; it does not end with one
    when the last member listed has a name that is not empty and does not
    end with a comma; it is empty when the user is in no chat. *)
Theorem getUserChatInfo_joins_tokens (u : QString) (d : Database) :
  let s := eval (getUserChatInfo u) (healthy d) in
  let tokens := summary_tokens u d in
  s = text (String.concat "," tokens)
  /\ starts_with_comma (chars s) = false
  /\ (last tokens "" <> "" ->
      ends_with_comma (last tokens "") = false ->
      ends_with_comma (chars s) = false)
  /\ (eval (getChatsUserIsIn u) (healthy d) = [] -> s = text "").
Proof.
  cbn zeta. rewrite getUserChatInfo_join. cbn [chars]. repeat split.
  - destruct (summary_tokens_head u d) as [-> | (c & rest & ->)];
      [reflexivity|].
    destruct (QString_number_head c) as (a & first & -> & Ha).
    now apply starts_with_comma_concat.
  - intros Hne Hlast. now rewrite ends_with_comma_concat.
  - unfold summary_tokens. now intros ->.
Qed.

(** C10, as first stated, fails on the trailing comma: Fred shares chat 1
    with a user called ["Harry,"], and his summary is ["1,Harry,"]. *)
Lemma getUserChatInfo_trailing_comma :
  ~ comma_free_summary "Fred" (db comma_member).
Proof.
  intros (_ & _ & H & _). vm_compute in H. discriminate.
Qed.

(** The demonstration of main.cpp prints these two summaries. *)
Example getUserChatInfo_Fred :
  eval (getUserChatInfo "Fred") demo_chats = "1,Bob,1,Harry,2,Harry".
Proof. reflexivity. Qed.

Example getUserChatInfo_Harry :
  eval (getUserChatInfo "Harry") demo_chats = "1,Bob,1,Fred,2,Fred".
Proof. reflexivity. Qed.

Example getUserChatInfo_comma_name :
  eval (getUserChatInfo "Fred") comma_member = "1,Harry,".
Proof. reflexivity. Qed.

Example getUserChatInfo_nameless :
  eval (getUserChatInfo "Fred") nameless_member = "1,".
Proof. reflexivity. Qed.

(* ================================================================== *)
(** * The demonstration of main.cpp, replayed *)
(* ================================================================== *)

(** The outcomes that the comments of main.cpp announce. *)
Example demo_credentials :
  eval (userExists "Bob") demo_users = true
  /\ eval (checkUserInfo "Bob" "password1") demo_users = true
  /\ eval (checkUserInfo "Bob" "wrongpassword") demo_users = false
  /\ eval (checkUserInfo "Ted" "passwordtest") demo_users = false.
Proof. repeat split. Qed.

(** Letter case counts, in the name and in the password. *)
Example checkUserInfo_case :
  eval (checkUserInfo "bob" "password1") demo_users = false
  /\ eval (checkUserInfo "Bob" "Password1") demo_users = false.
Proof. repeat split. Qed.

Example demo_chat_tables :
  eval (getChatOwner 9) demo_chats = QString_null
  /\ eval (getChatOwner 1) demo_chats = "Bob"
  /\ eval (getChatUsers 1) demo_chats = chat1
  /\ eval (getChatUsers 2) demo_chats = chat2
  /\ eval (doUsersChat "Bob" "Harry") demo_chats = true
  /\ eval (doUsersChat "Bob" "Rick") demo_chats = false
  /\ eval (getChatsUserIsIn "Bob") demo_chats = [1%Z].
Proof. repeat split. Qed.

Example demo_removal :
  eval (removeChat 1 "Harry") demo_chats = false
  /\ eval (removeChat 1 "Bob") demo_chats = true
  /\ eval (chatExists 1) (exec_ (removeChat 1 "Bob") demo_chats) = false
  /\ eval (doUsersChat "Bob" "Harry")
          (exec_ (removeChat 1 "Bob") demo_chats) = false
  /\ eval (getChatsUserIsIn "Bob")
          (exec_ (removeChat 1 "Bob") demo_chats) = [].
Proof. repeat split. Qed.

(** On a connection with the pragma on, the owner's [removeChat] of the
    demonstration is refused and chat 1 stays. *)
Example demo_removal_under_foreign_keys :
  eval (removeChat 1 "Bob") (with_foreign_keys demo_chats) = false
  /\ eval (chatExists 1)
          (exec_ (removeChat 1 "Bob") (with_foreign_keys demo_chats)) = true.
Proof. repeat split. Qed.

(* ================================================================== *)
(** * Referential integrity *)
(* ================================================================== *)

(** C4: a state reached from the empty store by [addUser] and [addChat]
    holds a membership row whose user is not in [userinfo]: [addChat]
    checks the owner, not the members, and the store, with the pragma off,
    does not check the [FOREIGN KEY] clauses. *)
Theorem membership_of_unknown_user :
  chatusers (db ghost_member) = [(1, text "Ghost")]
  /\ has_user "Ghost" (db ghost_member) = false
  /\ referential_integrity (db ghost_member) = false.
Proof. repeat split. Qed.


(** ** What does hold: membership rows name existing chats *)

(** On a run without store failures, with the pragma off as the class
    leaves it, a membership row never outlives or precedes its chat. *)

Lemma addChat_loop_healthy (c size : Z) (members : list QString) :
  forall (i : Z) (success : bool) (d : Database),
    foreign_keys d = false ->
    snd (addChat_loop c size i members success (healthy d))
    = healthy (mkDatabase (foreign_keys d) (userinfo d) (chats d)
                 (chatusers d
                  ++ map (fun u => (c, u)) (filter not_null members))).
Proof.
  induction members as [|u members IH]; intros i success d Hfk.
  - cbn. rewrite app_nil_r. now destruct d.
  - cbn [addChat_loop]. unfold bind. rewrite exec_update_eq.
    unfold INSERT_INTO_chatusers.
    cbn [next_runs healthy schedule hd db tl]. rewrite Hfk. cbn [andb].
    destruct u as [|name]; cbn [filter not_null map].
    + rewrite tick_healthy, (IH _ _ d Hfk). now rewrite Hfk.
    + change (mkWorld ?x []) with (healthy x).
      rewrite IH by reflexivity.
      cbn [foreign_keys userinfo chats chatusers map].
      now rewrite <- app_assoc.
Qed.

Lemma addChat_healthy (c : Z) (o : QString) (members : list QString)
    (d : Database) :
  foreign_keys d = false ->
  exec_ (addChat c o members) (healthy d) = healthy d
  \/ (has_chat c d = false
      /\ exec_ (addChat c o members) (healthy d)
         = healthy (with_chat c o members d)).
Proof.
  intros Hfk. unfold exec_, addChat, bind.
  rewrite chatExists_eq, tick_healthy.
  cbn [next_runs healthy schedule hd andb db].
  destruct (has_chat c d) eqn:Hc; [now left|].
  rewrite userExists_eq, tick_healthy.
  cbn [next_runs healthy schedule hd andb db].
  destruct (has_user o d) eqn:Ho; cbn [negb]; [|now left].
  rewrite exec_update_eq. unfold INSERT_INTO_chats.
  cbn [next_runs healthy schedule hd db tl]. rewrite Hc, Hfk. cbn [andb negb].
  destruct o as [|name]; [now apply has_user_not_null in Ho|].
  cbn [negb]. change (mkWorld ?x []) with (healthy x).
  right. split; [reflexivity|].
  rewrite addChat_loop_healthy by reflexivity.
  unfold with_chat. cbn [foreign_keys userinfo chats chatusers].
  now rewrite Hfk.
Qed.

Lemma removeChat_healthy (c : Z) (u : QString) (d : Database) :
  foreign_keys d = false ->
  exec_ (removeChat c u) (healthy d) = healthy d
  \/ exec_ (removeChat c u) (healthy d) = healthy (without_chat c d).
Proof.
  intros Hfk. unfold exec_, removeChat, bind.
  rewrite chatExists_eq, tick_healthy.
  cbn [next_runs healthy schedule hd andb db].
  destruct (has_chat c d) eqn:Hc; [|now left].
  rewrite getChatOwner_eq, tick_healthy.
  cbn [next_runs healthy schedule hd andb db]. rewrite Hc.
  destruct (QString_eqb _ u); [|now left].
  rewrite exec_update_eq. unfold DELETE_FROM_chats.
  cbn [next_runs healthy schedule hd db tl tick]. rewrite Hfk.
  cbn [andb negb]. rewrite exec_update_eq. right.
  unfold without_chat. now rewrite Hfk.
Qed.

Lemma addUser_healthy (u p : QString) (d : Database) :
  exists d' : Database,
    exec_ (addUser u p) (healthy d) = healthy d'
    /\ foreign_keys d' = foreign_keys d
    /\ chats d' = chats d /\ chatusers d' = chatusers d.
Proof.
  unfold exec_. rewrite addUser_eq, !tick_healthy.
  cbn [next_runs healthy schedule hd andb db tl].
  destruct (has_user u d); cbn [negb snd]; eexists; repeat split.
Qed.

Lemma getUserChatInfo_world (u : QString) (d : Database) :
  exec_ (getUserChatInfo u) (healthy d) = healthy d.
Proof.
  unfold exec_, getUserChatInfo, bind. rewrite getChatsUserIsIn_world.
  destruct (eval (getChatsUserIsIn u) (healthy d)) as [|c ids];
    [reflexivity|].
  pose proof (getUserChatInfo_chats_join u d (c :: ids) []) as H.
  cbn zeta in H. cbn [String.concat flag_after app] in H.
  now rewrite H.
Qed.

(** A call that only reads leaves a healthy world as it is. *)
Lemma queries_healthy (d : Database) :
  (forall u, exec_ (userExists u) (healthy d) = healthy d)
  /\ (forall u p, exec_ (checkUserInfo u p) (healthy d) = healthy d)
  /\ (forall c, exec_ (chatExists c) (healthy d) = healthy d)
  /\ (forall c, exec_ (getChatOwner c) (healthy d) = healthy d)
  /\ (forall a b, exec_ (doUsersChat a b) (healthy d) = healthy d)
  /\ (forall c, exec_ (getChatUsers c) (healthy d) = healthy d)
  /\ (forall u, exec_ (getChatsUserIsIn u) (healthy d) = healthy d).
Proof.
  unfold exec_. repeat split; intros.
  - now rewrite userExists_eq.
  - rewrite checkUserInfo_eq.
    cbn [next_runs healthy schedule hd andb db]. now destruct (has_user u d).
  - now rewrite chatExists_eq.
  - rewrite getChatOwner_eq.
    cbn [next_runs healthy schedule hd andb db]. now destruct (has_chat c d).
  - rewrite doUsersChat_eq. cbn [next_runs healthy schedule hd andb db].
    now destruct (SELECT_chatid_FROM_chatusers a d).
  - now rewrite getChatUsers_world.
  - now rewrite getChatsUserIsIn_world.
Qed.

Lemma has_chat_grows (x c : Z) (o : QString) (members : list QString)
    (d : Database) :
  has_chat x d = true -> has_chat x (with_chat c o members d) = true.
Proof.
  unfold has_chat, with_chat. cbn [chats]. rewrite existsb_app.
  now intros ->.
Qed.

Lemma has_chat_without (x c : Z) (d : Database) :
  x <> c -> has_chat x (without_chat c d) = has_chat x d.
Proof.
  intros Hx. unfold has_chat, without_chat. cbn [chats].
  induction (chats d) as [|r l IH]; [reflexivity|].
  cbn [filter existsb]. destruct (Z.eqb_spec (fst r) c) as [E|E];
    cbn [negb existsb]; rewrite IH; [|reflexivity].
  replace (fst r =? x)%Z with false; [reflexivity|].
  symmetry. apply Z.eqb_neq. congruence.
Qed.

Lemma chat_integrity_with_chat (c : Z) (o : QString)
    (members : list QString) (d : Database) :
  chat_integrity d = true -> chat_integrity (with_chat c o members d) = true.
Proof.
  unfold chat_integrity. intros H. rewrite forallb_forall in *.
  intros r Hr. cbn [with_chat chatusers] in Hr.
  apply in_app_or in Hr as [Hr|Hr].
  - apply has_chat_grows. now apply H.
  - apply in_map_iff in Hr as (u & <- & _). cbn [fst].
    apply has_chat_after_insert.
Qed.

Lemma chat_integrity_without_chat (c : Z) (d : Database) :
  chat_integrity d = true -> chat_integrity (without_chat c d) = true.
Proof.
  unfold chat_integrity. intros H. rewrite forallb_forall in *.
  intros r Hr. cbn [without_chat chatusers] in Hr.
  apply filter_In in Hr as [Hr Hne].
  apply negb_true_iff, Z.eqb_neq in Hne.
  rewrite has_chat_without by exact Hne. now apply H.
Qed.

Lemma run_call_keeps_chat_integrity (call : Call) (d : Database) :
  foreign_keys d = false ->
  chat_integrity d = true ->
  exists d' : Database,
    run_call call (healthy d) = healthy d'
    /\ foreign_keys d' = false /\ chat_integrity d' = true.
Proof.
  intros Hfk Hinv.
  destruct (queries_healthy d) as (Q1 & Q2 & Q3 & Q4 & Q5 & Q6 & Q7).
  destruct call; cbn [run_call];
    try solve [exists d; split;
                 [auto using getUserChatInfo_world|now split]].
  - destruct (addUser_healthy username password d) as (d' & -> & F & C & U).
    exists d'. split; [reflexivity|]. split; [congruence|].
    unfold chat_integrity, has_chat in *. now rewrite U, C.
  - destruct (addChat_healthy chatID username userVector d Hfk)
      as [-> | [_ ->]]; eexists; (split; [reflexivity|]); split; auto.
    now apply chat_integrity_with_chat.
  - destruct (removeChat_healthy chatID username d Hfk) as [-> | ->];
      eexists; (split; [reflexivity|]); split; auto.
    now apply chat_integrity_without_chat.
Qed.

(** X23: whatever calls are made on the empty store, if the store never
    fails, every membership row names a chat of [chats]. *)
Theorem chat_reference_kept (calls : list Call) :
  chat_integrity (db (run_calls calls (healthy empty_db))) = true.
Proof.
  assert (H : forall (cs : list Call) (d : Database),
             foreign_keys d = false -> chat_integrity d = true ->
             chat_integrity (db (run_calls cs (healthy d))) = true).
  { induction cs as [|call cs IH]; intros d Hfk Hinv; [exact Hinv|].
    cbn [run_calls fold_left].
    destruct (run_call_keeps_chat_integrity call d Hfk Hinv)
      as (d' & -> & Hfk' & Hinv').
    now apply IH. }
  now apply H.
Qed.

(* ================================================================== *)
(** * Further properties of the member functions *)
(* ================================================================== *)

Local Close Scope string_scope.

(** ** sqlSize *)

(** X1: on an active query [sqlSize] returns the number of rows.  It puts
    the cursor back where it was, except that a cursor past the last row is
    left before the first row: [seek] treats every negative index alike. *)
Theorem sqlSize_counts_rows {R : Type} (q : QSqlQuery R) :
  isActive q = true ->
  well_placed q ->
  sqlSize q = (rowCount q, after_sqlSize q).
Proof.
  intros Ha Hp. destruct q as [a rows k]. cbn in Ha. subst a.
  unfold well_placed, sqlSize, after_sqlSize, q_last, q_seek, rowCount,
    set_at, BeforeFirstRow, AfterLastRow in *.
  cbn [isActive result at_ andb negb] in *.
  destruct rows as [|r rows];
    cbn [List.length] in *;
    destruct Hp as [-> | [-> | Hk]]; try reflexivity; try lia;
    repeat (cbn [isActive result at_ andb negb List.length];
            match goal with
            | |- context [Z.eqb ?a ?b] =>
                destruct (Z.eqb_spec a b); try lia
            | |- context [Z.ltb ?a ?b] =>
                destruct (Z.ltb_spec a b); try lia
            end);
    f_equal; lia.
Qed.

Lemma sqlSize_counts_rows_witness :
  sqlSize (spent [4; 5; 6]) = (3, fresh [4; 5; 6])
  /\ sqlSize (on_row [4; 5; 6] 1) = (3, on_row [4; 5; 6] 1).
Proof.
  split.
  - rewrite (sqlSize_counts_rows (spent [4; 5; 6]) eq_refl);
      [reflexivity|].
    right. left. reflexivity.
  - rewrite (sqlSize_counts_rows (on_row [4; 5; 6] 1) eq_refl);
      [reflexivity|].
    right. right. cbn. lia.
Defined.

(** ** Reads *)

Lemma getUserChatInfo_chats_db (u : QString) (ids : list Z) :
  forall (st : QString * Z) (w : World),
    db (snd (getUserChatInfo_chats u ids st w)) = db w.
Proof.
  induction ids as [|c ids IH]; intros st w; [reflexivity|].
  cbn [getUserChatInfo_chats]. unfold bind. rewrite getChatUsers_eq.
  destruct (next_runs w && has_chat c (db w)); rewrite IH; reflexivity.
Qed.

Lemma userExists_db (u : QString) (w : World) :
  db (exec_ (userExists u) w) = db w.
Proof. unfold exec_. now rewrite userExists_eq. Qed.

Lemma checkUserInfo_db (u p : QString) (w : World) :
  db (exec_ (checkUserInfo u p) w) = db w.
Proof.
  unfold exec_. rewrite checkUserInfo_eq.
  now destruct (next_runs w && has_user u (db w)).
Qed.

Lemma chatExists_db (c : Z) (w : World) :
  db (exec_ (chatExists c) w) = db w.
Proof. unfold exec_. now rewrite chatExists_eq. Qed.

Lemma getChatOwner_db (c : Z) (w : World) :
  db (exec_ (getChatOwner c) w) = db w.
Proof.
  unfold exec_. rewrite getChatOwner_eq.
  now destruct (next_runs w && has_chat c (db w)).
Qed.

Lemma doUsersChat_db (a b : QString) (w : World) :
  db (exec_ (doUsersChat a b) w) = db w.
Proof.
  unfold exec_. rewrite doUsersChat_eq. destruct (next_runs w);
    [|reflexivity].
  now destruct (SELECT_chatid_FROM_chatusers a (db w)).
Qed.

Lemma getChatUsers_db (c : Z) (w : World) :
  db (exec_ (getChatUsers c) w) = db w.
Proof.
  unfold exec_. rewrite getChatUsers_eq.
  now destruct (next_runs w && has_chat c (db w)).
Qed.

Lemma getChatsUserIsIn_db (u : QString) (w : World) :
  db (exec_ (getChatsUserIsIn u) w) = db w.
Proof.
  unfold exec_. rewrite getChatsUserIsIn_eq.
  now destruct (next_runs w && has_user u (db w)).
Qed.

Lemma getUserChatInfo_db (u : QString) (w : World) :
  db (exec_ (getUserChatInfo u) w) = db w.
Proof.
  unfold exec_, getUserChatInfo, bind. rewrite getChatsUserIsIn_eq.
  destruct (next_runs w && has_user u (db w)); [|reflexivity].
  destruct (if next_runs (tick w) then _ else _) as [|c ids];
    [reflexivity|].
  destruct (getUserChatInfo_chats u (c :: ids) _ _) as [st w'] eqn:E.
  cbn [snd ret]. change w' with (snd (st, w')). rewrite <- E.
  now rewrite getUserChatInfo_chats_db.
Qed.

(** X2: the eight functions that only read never change a table, whatever
    the store does. *)
Theorem reads_write_nothing (w : World) :
  (forall u, db (exec_ (userExists u) w) = db w)
  /\ (forall u p, db (exec_ (checkUserInfo u p) w) = db w)
  /\ (forall c, db (exec_ (chatExists c) w) = db w)
  /\ (forall c, db (exec_ (getChatOwner c) w) = db w)
  /\ (forall a b, db (exec_ (doUsersChat a b) w) = db w)
  /\ (forall c, db (exec_ (getChatUsers c) w) = db w)
  /\ (forall u, db (exec_ (getChatsUserIsIn u) w) = db w)
  /\ (forall u, db (exec_ (getUserChatInfo u) w) = db w).
Proof.
  repeat split; intros;
    auto using userExists_db, checkUserInfo_db, chatExists_db,
      getChatOwner_db, doUsersChat_db, getChatUsers_db,
      getChatsUserIsIn_db, getUserChatInfo_db.
Qed.

Lemma has_user_exists (u : QString) (d : Database) :
  has_user u d = true
  <-> u <> QString_null /\ exists p, In (u, p) (userinfo d).
Proof.
  unfold has_user. rewrite existsb_exists. split.
  - intros ([u' p] & Hin & E). cbn in E. apply sql_eqb_eq in E as [-> N].
    split; [exact N|now exists p].
  - intros (N & p & Hin). exists (u, p). split; [exact Hin|].
    now apply sql_eqb_refl.
Qed.

Lemma has_chat_exists (c : Z) (d : Database) :
  has_chat c d = true <-> exists o, In (c, o) (chats d).
Proof.
  unfold has_chat. rewrite existsb_exists. split.
  - intros ([c' o] & Hin & E). cbn in E. apply Z.eqb_eq in E.
    subst. now exists o.
  - intros (o & Hin). exists (c, o). split; [exact Hin|].
    apply Z.eqb_refl.
Qed.

(** X3: [userExists], [chatExists] and [checkUserInfo] answer true exactly
    when the store ran their statements, no string asked about is the null
    string, and the row is there: a store failure can turn an answer into
    false, never into true. *)
Theorem yes_means_row (w : World) :
  (forall u, eval (userExists u) w = true <->
             hd true (schedule w) = true
             /\ u <> QString_null
             /\ exists p, In (u, p) (userinfo (db w)))
  /\ (forall c, eval (chatExists c) w = true <->
                hd true (schedule w) = true
                /\ exists o, In (c, o) (chats (db w)))
  /\ (forall u p, eval (checkUserInfo u p) w = true <->
                  statements_run 2 w = true
                  /\ u <> QString_null /\ p <> QString_null
                  /\ In (u, p) (userinfo (db w))).
Proof.
  unfold eval. split; [|split].
  - intros u. rewrite userExists_eq. cbn [fst].
    rewrite andb_true_iff, has_user_exists. reflexivity.
  - intros c. rewrite chatExists_eq. cbn [fst].
    rewrite andb_true_iff, has_chat_exists. reflexivity.
  - intros u p. rewrite checkUserInfo_eq. split.
    + intros H.
      destruct (next_runs w && has_user u (db w)) eqn:E; [|discriminate].
      cbn [fst] in H. apply andb_true_iff in H as [H2 H].
      apply andb_true_iff in E as [H1 _].
      split; [|now apply existsb_matches].
      destruct w as [d [|b1 [|b2 s]]]; cbn in *; subst; reflexivity.
    + intros (Hr & Nu & Np & Hin).
      assert (H1 : next_runs w = true /\ next_runs (tick w) = true).
      { destruct w as [d [|b1 [|b2 s]]]; cbn in *;
          repeat match goal with b : bool |- _ => destruct b end;
          cbn in *; try discriminate; auto. }
      destruct H1 as [-> ->]. rewrite (has_user_In _ _ _ Nu Hin). cbn.
      now apply existsb_matches.
Qed.

(** ** What a write can do to the tables *)

Lemma addUser_effect (u p : QString) (w : World) :
  (eval (addUser u p) w = false /\ db (exec_ (addUser u p) w) = db w)
  \/ (eval (addUser u p) w = true
      /\ has_user u (db w) = false
      /\ db (exec_ (addUser u p) w)
         = mkDatabase (foreign_keys (db w)) (userinfo (db w) ++ [(u, p)])
                      (chats (db w)) (chatusers (db w))).
Proof.
  unfold eval, exec_. rewrite addUser_eq.
  destruct (next_runs w && has_user u (db w)); [now left|].
  destruct (next_runs (tick w)); cbn [andb]; [|now left].
  destruct (has_user u (db w)); cbn [negb]; [now left|now right].
Qed.

Lemma addChat_loop_effect (c size : Z) (rest : list QString) :
  forall (i : Z) (success : bool) (w : World),
    let w' := snd (addChat_loop c size i rest success w) in
    foreign_keys (db w') = foreign_keys (db w)
    /\ userinfo (db w') = userinfo (db w)
    /\ chats (db w') = chats (db w)
    /\ exists rows : list (Z * QString),
         chatusers (db w') = chatusers (db w) ++ rows
         /\ Forall (fun r => fst r = c /\ In (snd r) rest) rows.
Proof.
  induction rest as [|u rest IH]; intros i success w; cbn zeta.
  - cbn. repeat split. exists []. now rewrite app_nil_r.
  - cbn [addChat_loop]. unfold bind. rewrite exec_update_eq.
    assert (Hweak : forall rows : list (Z * QString),
      Forall (fun r => fst r = c /\ In (snd r) rest) rows ->
      Forall (fun r => fst r = c /\ In (snd r) (u :: rest)) rows).
    { intros rows. apply Forall_impl. intros r [H1 H2].
      split; [exact H1|now right]. }
    unfold INSERT_INTO_chatusers.
    destruct (next_runs w);
      [destruct u as [|name];
         [|destruct (foreign_keys (db w)
                     && negb (has_chat c (db w)
                              && has_user (text name) (db w)))]|];
      match goal with
      | |- context [addChat_loop c size (i + 1) rest ?s ?w1] =>
          destruct (IH (i + 1) s w1) as (F & U & C & rows & R & HF)
      end;
      cbn [db tick foreign_keys userinfo chats chatusers] in *;
      repeat split; auto.
    + exists rows. auto.
    + exists rows. auto.
    + exists ((c, text name) :: rows). split.
      * rewrite R, <- app_assoc. reflexivity.
      * constructor; [split; [reflexivity|now left]|auto].
    + exists rows. auto.
Qed.

(** [addChat] either changes nothing or appends the chat row and then
    membership rows of that chat, for names of the list. *)
Lemma addChat_effect (c : Z) (o : QString) (members : list QString)
    (w : World) :
  let w' := exec_ (addChat c o members) w in
  (eval (addChat c o members) w = false /\ db w' = db w)
  \/ (has_chat c (db w) = false
      /\ foreign_keys (db w') = foreign_keys (db w)
      /\ userinfo (db w') = userinfo (db w)
      /\ chats (db w') = chats (db w) ++ [(c, o)]
      /\ exists rows : list (Z * QString),
           chatusers (db w') = chatusers (db w) ++ rows
           /\ Forall (fun r => fst r = c /\ In (snd r) members) rows).
Proof.
  cbn zeta. unfold eval, exec_, addChat, bind. rewrite chatExists_eq.
  destruct (next_runs w && has_chat c (db w)); [now left|].
  rewrite userExists_eq.
  destruct (next_runs (tick w) && has_user o (db (tick w)));
    cbn [negb]; [|now left].
  rewrite exec_update_eq. unfold INSERT_INTO_chats. cbn [db tick].
  destruct (next_runs (tick (tick w))); cbn [negb]; [|now left].
  destruct o as [|name]; [now left|].
  destruct (has_chat c (db w)) eqn:Hc; cbn [negb]; [now left|].
  destruct (foreign_keys (db w) && negb (has_user (text name) (db w)));
    cbn [negb]; [now left|].
  right. split; [reflexivity|].
  match goal with
  | |- context [addChat_loop c ?size 0 members false ?w1] =>
      destruct (addChat_loop_effect c size members 0 false w1)
        as (F & U & C & rows & R & HF)
  end.
  cbn [db foreign_keys userinfo chats chatusers] in *.
  repeat split; auto. exists rows. auto.
Qed.

(** [removeChat] changes nothing, or deletes the chat row alone (the second
    [DELETE] failed), or deletes the chat row and its membership rows. *)
Lemma removeChat_effect (id : Z) (u : QString) (w : World) :
  let w' := exec_ (removeChat id u) w in
  let r := eval (removeChat id u) w in
  (r = false /\ db w' = db w)
  \/ (r = false /\ DELETE_FROM_chats id (db w) = Some (db w'))
  \/ (r = true /\ DELETE_FROM_chats id (db w) <> None
      /\ db w' = without_chat id (db w)).
Proof.
  cbn zeta. unfold eval, exec_, removeChat, bind. rewrite chatExists_eq.
  destruct (next_runs w && has_chat id (db w)); [|now left].
  destruct (getChatOwner id (tick w)) as [owner w2] eqn:E.
  assert (Hdb : db w2 = db w).
  { pose proof (getChatOwner_db id (tick w)) as H.
    unfold exec_ in H. now rewrite E in H. }
  destruct (QString_eqb owner u); [|left; split; [reflexivity|exact Hdb]].
  rewrite exec_update_eq, Hdb.
  destruct (next_runs w2);
    [|left; split; [reflexivity|exact Hdb]].
  destruct (DELETE_FROM_chats id (db w)) as [d1|] eqn:D; cbn [negb];
    [|left; split; [reflexivity|exact Hdb]].
  rewrite exec_update_eq. unfold next_runs, DELETE_FROM_chatusers, tick.
  cbn [db schedule].
  unfold DELETE_FROM_chats in D.
  destruct (foreign_keys (db w) && has_member_row id (db w));
    [discriminate|]. injection D as <-.
  destruct (hd true (tl (schedule w2))); cbn [negb].
  - right. right. split; [reflexivity|]. split; [discriminate|].
    reflexivity.
  - right. left. split; reflexivity.
Qed.

(** ** Round trips *)

Lemma has_user_false_In (u p : QString) (d : Database) :
  u <> QString_null -> has_user u d = false -> ~ In (u, p) (userinfo d).
Proof.
  intros N H Hin. apply has_user_In in Hin; congruence.
Qed.

Lemma checkUserInfo_healthy (u p : QString) (d : Database) :
  eval (checkUserInfo u p) (healthy d) = true
  <-> u <> QString_null /\ p <> QString_null /\ In (u, p) (userinfo d).
Proof.
  unfold eval. rewrite checkUserInfo_eq.
  cbn [next_runs healthy schedule hd db andb tick tl].
  destruct (has_user u d) eqn:E; cbn [fst].
  - apply existsb_matches.
  - split; [discriminate|].
    intros (N & _ & Hin). apply has_user_In in Hin; congruence.
Qed.

(** X4: after a successful [addUser u p], [checkUserInfo] accepts for [u]
    the password [p] and no other, provided neither [u] nor [p] is the null
    string; a user or a password stored as [NULL] is never accepted. *)
Theorem addUser_then_checkUserInfo (u p : QString) (w : World) :
  eval (addUser u p) w = true ->
  forall p' : QString,
    eval (checkUserInfo u p') (healthy (db (exec_ (addUser u p) w)))
    = not_null u && sql_eqb p p'.
Proof.
  intros Hok p'.
  destruct (addUser_effect u p w) as [[H _] | (_ & Hnew & ->)];
    [congruence|].
  destruct (not_null u && sql_eqb p p') eqn:T.
  - apply andb_true_iff in T as [Nu Hp].
    apply not_null_iff in Nu. apply sql_eqb_eq in Hp as [-> Np].
    apply checkUserInfo_healthy. cbn [db userinfo].
    split; [exact Nu|]. split; [exact Np|].
    apply in_or_app. right. now left.
  - destruct (eval (checkUserInfo u p') _) eqn:E; [|reflexivity].
    apply checkUserInfo_healthy in E as (Nu & Np & E).
    cbn [db userinfo] in E.
    apply in_app_or in E as [E|[E|[]]].
    + now apply has_user_false_In in E.
    + injection E as <-. apply not_null_iff in Nu.
      rewrite Nu, sql_eqb_refl in T by exact Np. discriminate.
Qed.

Lemma addUser_then_checkUserInfo_witness :
  eval (checkUserInfo "Bob" "password1")
       (healthy (db (exec_ (addUser "Bob" "password1") (healthy empty_db))))
  = true
  /\ eval (checkUserInfo "Bob" "password2")
          (healthy (db (exec_ (addUser "Bob" "password1")
                              (healthy empty_db))))
     = false.
Proof.
  split.
  - now rewrite (addUser_then_checkUserInfo "Bob" "password1"
                   (healthy empty_db) eq_refl "password1").
  - now rewrite (addUser_then_checkUserInfo "Bob" "password1"
                   (healthy empty_db) eq_refl "password2").
Defined.

(** X5: when [addChat] returns true, the chat exists and [getChatOwner]
    returns the owner that was passed, whatever the store did during the
    call. *)
Theorem addChat_then_getChatOwner (c : Z) (o : QString)
    (members : list QString) (w : World) :
  eval (addChat c o members) w = true ->
  eval (chatExists c) (healthy (db (exec_ (addChat c o members) w))) = true
  /\ eval (getChatOwner c) (healthy (db (exec_ (addChat c o members) w)))
     = o.
Proof.
  intros Hok.
  destruct (addChat_effect c o members w)
    as [[H _] | (_ & _ & _ & Hch & _)]; [congruence|].
  assert (Hc : has_chat c (db (exec_ (addChat c o members) w)) = true).
  { unfold has_chat. rewrite Hch, existsb_app. cbn.
    now rewrite Z.eqb_refl, orb_true_r. }
  rewrite chatExists_healthy, (getChatOwner_healthy _ _ Hc).
  split; [exact Hc|].
  unfold SELECT_owner_FROM_chats. rewrite Hch, filter_app, map_app.
  cbn [filter fst]. rewrite Z.eqb_refl. cbn [map snd].
  apply last_last.
Qed.

Lemma addChat_then_getChatOwner_witness :
  eval (getChatOwner 1)
       (healthy (db (exec_ (addChat 1 "Bob" chat1)
                           (mkWorld (db demo_users)
                                    [true; true; true; false; false; true]))))
  = "Bob"%string.
Proof.
  apply (addChat_then_getChatOwner 1 "Bob" chat1
           (mkWorld (db demo_users) [true; true; true; false; false; true])).
  reflexivity.
Defined.

Lemma addChat_loop_healthy_result (c size : Z) (members : list QString) :
  forall (i : Z) (success : bool) (d : Database),
    foreign_keys d = false ->
    i + Z.of_nat (List.length members) = size ->
    fst (addChat_loop c size i members success (healthy d))
    = success || not_null (last members QString_null).
Proof.
  induction members as [|u members IH]; intros i success d Hfk Hi.
  - cbn. now rewrite orb_false_r.
  - cbn [addChat_loop]. unfold bind. rewrite exec_update_eq.
    unfold INSERT_INTO_chatusers.
    cbn [next_runs healthy schedule hd db tl]. rewrite Hfk. cbn [andb negb].
    rewrite last_cons_default.
    destruct u as [|name]; cbn [negb];
      [rewrite tick_healthy|change (mkWorld ?x []) with (healthy x)];
      rewrite IH by (cbn [foreign_keys List.length] in *; auto; lia);
      (destruct members as [|u' members];
       [cbn [last not_null]|rewrite !last_cons_default]);
      try reflexivity.
    + replace (i =? size - 1) with true
        by (symmetry; apply Z.eqb_eq; cbn [List.length] in Hi; lia).
      now rewrite !orb_true_r.
    + replace (i =? size - 1) with false
        by (symmetry; apply Z.eqb_neq; cbn [List.length] in Hi; lia).
      reflexivity.
Qed.

(** On a store that does not fail, a new chat with an existing owner goes
    in whole. *)
Lemma addChat_fresh_healthy (c : Z) (o : QString) (members : list QString)
    (d : Database) :
  foreign_keys d = false ->
  has_chat c d = false ->
  has_user o d = true ->
  addChat c o members (healthy d)
  = (not_null (last members QString_null),
     healthy (with_chat c o members d)).
Proof.
  intros Hfk Hc Ho. unfold addChat, bind.
  rewrite chatExists_eq, tick_healthy.
  cbn [next_runs healthy schedule hd andb db]. rewrite Hc.
  rewrite userExists_eq, tick_healthy.
  cbn [next_runs healthy schedule hd andb db]. rewrite Ho. cbn [negb].
  rewrite exec_update_eq. unfold INSERT_INTO_chats.
  cbn [next_runs healthy schedule hd db tl]. rewrite Hc, Hfk.
  destruct o as [|name]; [now apply has_user_not_null in Ho|].
  cbn [andb negb]. change (mkWorld ?x []) with (healthy x).
  rewrite (surjective_pairing (addChat_loop _ _ _ _ _ _)).
  rewrite addChat_loop_healthy_result by (auto; lia).
  rewrite addChat_loop_healthy by reflexivity.
  unfold with_chat. cbn [foreign_keys userinfo chats chatusers orb].
  now rewrite Hfk.
Qed.

Lemma filter_all {A : Type} (f : A -> bool) (l : list A) :
  (forall a, In a l -> f a = true) -> filter f l = l.
Proof.
  induction l as [|a l IH]; intros H; [reflexivity|].
  cbn [filter]. rewrite (H a) by now left.
  f_equal. apply IH. intros b Hb. apply H. now right.
Qed.

Lemma int_wrap_fits (c : Z) : fits_int c -> int_wrap c = c.
Proof.
  unfold fits_int, int_wrap. intros H.
  rewrite Z.mod_small by lia. lia.
Qed.

(** X6: take a store that does not fail, a chat number that is neither in
    [chats] nor in [chatusers], and an owner who is a user.  After
    [addChat], [getChatUsers] returns the member list as it was passed,
    duplicates and all, less the null strings, whose rows the table
    refuses; and [getChatsUserIsIn] of every member who is a user contains
    the chat. *)
Theorem addChat_then_members (c : Z) (o : QString) (members : list QString)
    (d : Database) :
  foreign_keys d = false ->
  has_chat c d = false ->
  has_member_row c d = false ->
  has_user o d = true ->
  fits_int c ->
  let w' := exec_ (addChat c o members) (healthy d) in
  eval (getChatUsers c) w' = filter not_null members
  /\ (forall u, In u members -> has_user u d = true ->
                In c (eval (getChatsUserIsIn u) w')).
Proof.
  intros Hfk Hc Hm Ho Hfit. cbn zeta. unfold exec_.
  rewrite (addChat_fresh_healthy c o members d Hfk Hc Ho). cbn [snd].
  split.
  - unfold eval. rewrite getChatUsers_eq.
    cbn [next_runs healthy schedule hd andb db tick tl fst].
    replace (has_chat c (with_chat c o members d)) with true.
    2:{ unfold has_chat, with_chat. cbn [chats]. rewrite existsb_app. cbn.
        now rewrite Z.eqb_refl, orb_true_r. }
    unfold SELECT_username_FROM_chatusers, with_chat. cbn [chatusers].
    rewrite filter_app, map_app.
    rewrite (existsb_filter_nil _ _ Hm). cbn [map app].
    rewrite filter_all.
    + rewrite map_map. cbn [snd]. apply map_id.
    + intros r Hr. apply in_map_iff in Hr as (u & <- & _).
      apply Z.eqb_refl.
  - intros u Hin Hu. unfold eval. rewrite getChatsUserIsIn_eq.
    cbn [next_runs healthy schedule hd andb db tick tl fst].
    replace (has_user u (with_chat c o members d)) with true
      by (symmetry; exact Hu).
    rewrite <- (int_wrap_fits c Hfit) at 1. apply in_map.
    pose proof (has_user_not_null _ _ Hu) as N.
    apply In_SELECT_chatid. split; [exact N|].
    unfold with_chat. cbn [chatusers].
    apply in_or_app. right. apply in_map_iff. exists u.
    split; [reflexivity|]. apply filter_In. split; [exact Hin|].
    now apply not_null_iff.
Qed.

Lemma fits_int_3 : fits_int 3.
Proof. unfold fits_int. split; [discriminate|reflexivity]. Defined.

Lemma addChat_then_members_witness :
  eval (getChatUsers 3)
       (exec_ (addChat 3 "Rick"
                 [text "Bob"; QString_null; text "Rick"; text "Bob"])
              (healthy (db demo_chats)))
  = [text "Bob"; text "Rick"; text "Bob"].
Proof.
  exact (proj1 (addChat_then_members 3 "Rick"
                  [text "Bob"; QString_null; text "Rick"; text "Bob"]
                  (db demo_chats) eq_refl eq_refl eq_refl eq_refl
                  fits_int_3)).
Defined.

(** ** Names and numbers the tables do not hold *)

(** X7: for a name that is not in [userinfo], whatever the store does,
    [checkUserInfo] is false, [getChatsUserIsIn] is empty and
    [getUserChatInfo] is the empty string, even when membership rows
    carry the name. *)
Theorem unknown_user_has_nothing (u : QString) (w : World) :
  has_user u (db w) = false ->
  (forall p, eval (checkUserInfo u p) w = false)
  /\ eval (getChatsUserIsIn u) w = []
  /\ eval (getUserChatInfo u) w = EmptyString.
Proof.
  intros Hu. unfold eval. repeat split.
  - intros p. rewrite checkUserInfo_eq, Hu, andb_false_r. reflexivity.
  - rewrite getChatsUserIsIn_eq, Hu, andb_false_r. reflexivity.
  - unfold getUserChatInfo, bind.
    rewrite getChatsUserIsIn_eq, Hu, andb_false_r. reflexivity.
Qed.

Lemma unknown_user_has_nothing_witness :
  eval (getChatUsers 1) ghost_member = [text "Ghost"]
  /\ eval (getChatsUserIsIn "Ghost") ghost_member = [].
Proof.
  split; [reflexivity|].
  apply (unknown_user_has_nothing "Ghost" ghost_member). reflexivity.
Defined.

Lemma removeChat_missing (id : Z) (u : QString) (w : World) :
  has_chat id (db w) = false -> removeChat id u w = (false, tick w).
Proof.
  intros Hc. unfold removeChat, bind.
  rewrite chatExists_eq, Hc, andb_false_r. reflexivity.
Qed.

(** X8: for a number that is not in [chats], whatever the store does,
    [getChatOwner] is the null string, [getChatUsers] is empty and
    [removeChat] returns false and changes nothing, even when membership
    rows carry the number. *)
Theorem unknown_chat_has_nothing (c : Z) (w : World) :
  has_chat c (db w) = false ->
  eval (getChatOwner c) w = QString_null
  /\ eval (getChatUsers c) w = []
  /\ (forall u, eval (removeChat c u) w = false
                /\ db (exec_ (removeChat c u) w) = db w).
Proof.
  intros Hc. unfold eval, exec_. repeat split.
  - rewrite getChatOwner_eq, Hc, andb_false_r. reflexivity.
  - rewrite getChatUsers_eq, Hc, andb_false_r. reflexivity.
  - now rewrite removeChat_missing.
  - now rewrite removeChat_missing.
Qed.

Lemma unknown_chat_has_nothing_witness :
  chatusers (db stale_rows) = [(1, text "Bob"); (1, text "Fred")]
  /\ eval (getChatUsers 1) stale_rows = []
  /\ eval (removeChat 1 "Bob") stale_rows = false.
Proof.
  destruct (unknown_chat_has_nothing 1 stale_rows eq_refl)
    as (_ & Hu & Hr).
  split; [reflexivity|]. split; [exact Hu|]. apply Hr.
Defined.

(** ** What a write leaves alone *)

Lemma filter_other {A : Type} (key : A -> Z) (c id : Z) (l : list A) :
  c <> id ->
  filter (fun r => key r =? c) (filter (fun r => negb (key r =? id)) l)
  = filter (fun r => key r =? c) l.
Proof.
  intros Hne. induction l as [|a l IH]; [reflexivity|].
  cbn [filter]. destruct (Z.eqb_spec (key a) id) as [E|E]; cbn [negb].
  - rewrite IH. replace (key a =? c) with false; [reflexivity|].
    symmetry. apply Z.eqb_neq. congruence.
  - cbn [filter]. now rewrite IH.
Qed.

(** What the class can tell about one chat: whether it exists, its owner
    and its users. *)
Lemma chat_view (c : Z) (d d' : Database) :
  filter (fun r => fst r =? c) (chats d')
  = filter (fun r => fst r =? c) (chats d) ->
  filter (fun r => fst r =? c) (chatusers d')
  = filter (fun r => fst r =? c) (chatusers d) ->
  eval (chatExists c) (healthy d') = eval (chatExists c) (healthy d)
  /\ eval (getChatOwner c) (healthy d') = eval (getChatOwner c) (healthy d)
  /\ eval (getChatUsers c) (healthy d') = eval (getChatUsers c) (healthy d).
Proof.
  intros Hc Hu.
  assert (E : has_chat c d' = has_chat c d).
  { unfold has_chat. rewrite <- !length_filter_pos. now rewrite Hc. }
  unfold eval. rewrite !chatExists_eq, !getChatOwner_eq, !getChatUsers_eq.
  cbn [next_runs healthy schedule hd andb db tick tl fst].
  unfold SELECT_owner_FROM_chats, SELECT_username_FROM_chatusers.
  rewrite E, Hc, Hu. now destruct (has_chat c d).
Qed.

(** X9: whatever the store does, [removeChat] leaves [userinfo] alone and
    every other chat as it was: its existence, its owner and its users. *)
Theorem removeChat_spares_other_chats (id c : Z) (u : QString) (w : World) :
  c <> id ->
  let d' := db (exec_ (removeChat id u) w) in
  userinfo d' = userinfo (db w)
  /\ eval (chatExists c) (healthy d') = eval (chatExists c) (healthy (db w))
  /\ eval (getChatOwner c) (healthy d')
     = eval (getChatOwner c) (healthy (db w))
  /\ eval (getChatUsers c) (healthy d')
     = eval (getChatUsers c) (healthy (db w)).
Proof.
  intros Hne. cbn zeta.
  destruct (removeChat_effect id u w) as [[_ ->] | [[_ D] | (_ & _ & ->)]].
  - repeat split.
  - unfold DELETE_FROM_chats in D.
    destruct (foreign_keys (db w) && has_member_row id (db w));
      [discriminate|]. injection D as <-. cbn [userinfo].
    split; [reflexivity|]. apply chat_view; cbn [chats chatusers].
    + now apply (filter_other fst).
    + reflexivity.
  - cbn [without_chat userinfo]. split; [reflexivity|].
    apply chat_view; cbn [chats chatusers without_chat];
      now apply (filter_other fst).
Qed.

Lemma removeChat_spares_other_chats_witness :
  eval (getChatUsers 2) (healthy (db (exec_ (removeChat 1 "Bob") demo_chats)))
  = eval (getChatUsers 2) (healthy (db demo_chats)).
Proof.
  apply (removeChat_spares_other_chats 1 2 "Bob" demo_chats). discriminate.
Defined.

Lemma filter_app_other {A : Type} (key : A -> Z) (c : Z) (l rows : list A) :
  Forall (fun r => key r <> c) rows ->
  filter (fun r => key r =? c) (l ++ rows) = filter (fun r => key r =? c) l.
Proof.
  intros H. rewrite filter_app.
  replace (filter (fun r => key r =? c) rows) with (@nil A);
    [now rewrite app_nil_r|].
  symmetry. induction H as [|a rows Ha _ IH]; [reflexivity|].
  cbn [filter]. replace (key a =? c) with false; [exact IH|].
  symmetry. now apply Z.eqb_neq.
Qed.

(** X10: whatever the store does, [addChat] leaves [userinfo] alone,
    removes no row of [chats] or [chatusers], and leaves every other chat
    as it was: its existence, its owner and its users. *)
Theorem addChat_spares_other_chats (c c' : Z) (o : QString)
    (members : list QString) (w : World) :
  c' <> c ->
  let d' := db (exec_ (addChat c o members) w) in
  userinfo d' = userinfo (db w)
  /\ (forall r, In r (chats (db w)) -> In r (chats d'))
  /\ (forall r, In r (chatusers (db w)) -> In r (chatusers d'))
  /\ eval (chatExists c') (healthy d')
     = eval (chatExists c') (healthy (db w))
  /\ eval (getChatOwner c') (healthy d')
     = eval (getChatOwner c') (healthy (db w))
  /\ eval (getChatUsers c') (healthy d')
     = eval (getChatUsers c') (healthy (db w)).
Proof.
  intros Hne. cbn zeta.
  destruct (addChat_effect c o members w)
    as [[_ ->] | (_ & _ & U & C & rows & R & HF)].
  - repeat split; auto.
  - split; [exact U|]. split.
    { intros r Hr. rewrite C. apply in_or_app. now left. }
    split.
    { intros r Hr. rewrite R. apply in_or_app. now left. }
    apply chat_view.
    + rewrite C. apply (filter_app_other fst).
      constructor; [cbn; congruence|constructor].
    + rewrite R. apply (filter_app_other fst).
      eapply Forall_impl; [|exact HF]. intros r [E _]. congruence.
Qed.

Lemma addChat_spares_other_chats_witness :
  eval (getChatUsers 1)
       (healthy (db (exec_ (addChat 2 "Harry" chat2)
                           (exec_ (addChat 1 "Bob" chat1) demo_users))))
  = chat1.
Proof.
  destruct (addChat_spares_other_chats 2 1 "Harry" chat2
              (exec_ (addChat 1 "Bob" chat1) demo_users))
    as (_ & _ & _ & _ & _ & H); [discriminate|].
  rewrite H. reflexivity.
Defined.

(** ** Removing a chat, again *)

Lemma has_chat_without_self (id : Z) (d : Database) :
  has_chat id (without_chat id d) = false.
Proof.
  unfold has_chat, without_chat. cbn [chats].
  apply (existsb_filter_neg (fun r => fst r =? id)).
Qed.

(** X11: once [removeChat] has returned true, the chat is gone for good:
    every later [removeChat] of that number, by anybody and whatever the
    store does, returns false and changes nothing. *)
Theorem removeChat_once (id : Z) (u u' : QString) (w : World) :
  eval (removeChat id u) w = true ->
  eval (removeChat id u') (exec_ (removeChat id u) w) = false
  /\ db (exec_ (removeChat id u') (exec_ (removeChat id u) w))
     = db (exec_ (removeChat id u) w).
Proof.
  intros Hok.
  destruct (removeChat_effect id u w)
    as [[H _] | [[H _] | (_ & _ & E)]]; try congruence.
  assert (Hgone : has_chat id (db (exec_ (removeChat id u) w)) = false)
    by (rewrite E; apply has_chat_without_self).
  unfold eval, exec_ in *.
  rewrite (removeChat_missing id u' _ Hgone). now split.
Qed.

Lemma removeChat_once_witness :
  eval (removeChat 1 "Bob") (exec_ (removeChat 1 "Bob") demo_chats) = false.
Proof.
  apply (removeChat_once 1 "Bob" "Bob" demo_chats). reflexivity.
Defined.

Lemma filter_neg_all {A : Type} (f : A -> bool) (l : list A) :
  existsb f l = false -> filter (fun r => negb (f r)) l = l.
Proof.
  induction l as [|a l IH]; cbn [existsb filter]; [reflexivity|].
  destruct (f a); cbn [orb negb]; [discriminate|].
  intros H. now rewrite IH.
Qed.

Lemma filter_neg_app_new {A : Type} (f : A -> bool) (l rows : list A) :
  existsb f l = false ->
  (forall r, In r rows -> f r = true) ->
  filter (fun r => negb (f r)) (l ++ rows) = l.
Proof.
  intros Hl Hrows. rewrite filter_app, (filter_neg_all f l Hl).
  replace (filter (fun r => negb (f r)) rows) with (@nil A);
    [apply app_nil_r|].
  symmetry. induction rows as [|a rows IH]; [reflexivity|].
  cbn [filter]. rewrite (Hrows a) by now left. cbn [negb].
  apply IH. intros r Hr. apply Hrows. now right.
Qed.

(** X12: on a store that does not fail, creating a chat under a number
    that is in neither table and removing it as its owner succeeds and
    leaves the database exactly as it was before. *)
Theorem addChat_then_removeChat (c : Z) (o : QString)
    (members : list QString) (d : Database) :
  foreign_keys d = false ->
  has_chat c d = false ->
  has_member_row c d = false ->
  has_user o d = true ->
  removeChat c o (exec_ (addChat c o members) (healthy d))
  = (true, healthy d).
Proof.
  intros Hfk Hc Hm Ho. unfold exec_.
  rewrite (addChat_fresh_healthy c o members d Hfk Hc Ho). cbn [snd].
  assert (Hc' : has_chat c (with_chat c o members d) = true).
  { unfold has_chat, with_chat. cbn [chats]. rewrite existsb_app. cbn.
    now rewrite Z.eqb_refl, orb_true_r. }
  unfold removeChat, bind. rewrite chatExists_eq, tick_healthy.
  cbn [next_runs healthy schedule hd andb db]. rewrite Hc'.
  rewrite getChatOwner_eq, !tick_healthy.
  cbn [next_runs healthy schedule hd andb db]. rewrite Hc'.
  replace (last (SELECT_owner_FROM_chats c (with_chat c o members d))
                QString_null) with o.
  2:{ unfold SELECT_owner_FROM_chats, with_chat. cbn [chats].
      rewrite filter_app, map_app. cbn [filter fst].
      rewrite Z.eqb_refl. cbn [map snd]. now rewrite last_last. }
  rewrite QString_eqb_refl, exec_update_eq. unfold DELETE_FROM_chats.
  cbn [next_runs healthy schedule hd db tl with_chat foreign_keys].
  rewrite Hfk. cbn [andb negb]. rewrite exec_update_eq.
  unfold DELETE_FROM_chatusers.
  cbn [next_runs schedule hd db tl negb foreign_keys userinfo chats
       chatusers].
  unfold ret, healthy, with_chat. cbn [userinfo chats chatusers].
  do 2 f_equal.
  rewrite (filter_neg_app_new (fun r => fst r =? c) (chats d));
    [|exact Hc|intros r [<-|[]]; apply Z.eqb_refl].
  rewrite (filter_neg_app_new (fun r => fst r =? c) (chatusers d));
    [|exact Hm|].
  - destruct d. cbn in *. now subst.
  - intros r Hr. apply in_map_iff in Hr as (x & <- & _). apply Z.eqb_refl.
Qed.

Lemma addChat_then_removeChat_witness :
  removeChat 3 "Rick" (exec_ (addChat 3 "Rick" chat1)
                             (healthy (db demo_chats)))
  = (true, healthy (db demo_chats)).
Proof.
  exact (addChat_then_removeChat 3 "Rick" chat1 (db demo_chats)
           eq_refl eq_refl eq_refl eq_refl).
Defined.

(** X13: when the store runs the reads and the first [DELETE] of
    [removeChat] and fails the second, the call returns false with the
    chat row deleted and every membership row still in the table.  The
    class then shows no users for the chat and refuses to remove it again,
    while [doUsersChat] still goes by the rows that stayed. *)
Theorem removeChat_second_delete_fails (id : Z) (A : QString)
    (d : Database) (later : list bool) :
  foreign_keys d = false ->
  eval (chatExists id) (healthy d) = true ->
  eval (getChatOwner id) (healthy d) = A ->
  let w := mkWorld d ([true; true; true; true; false] ++ later) in
  let w' := exec_ (removeChat id A) w in
  eval (removeChat id A) w = false
  /\ chatusers (db w') = chatusers d
  /\ eval (chatExists id) (healthy (db w')) = false
  /\ eval (getChatUsers id) (healthy (db w')) = []
  /\ (forall u, eval (removeChat id u) (healthy (db w')) = false)
  /\ (forall a b, eval (doUsersChat a b) (healthy (db w'))
                  = eval (doUsersChat a b) (healthy d)).
Proof.
  rewrite chatExists_healthy. intros Hfk Hc Ho.
  rewrite (getChatOwner_healthy _ _ Hc) in Ho. cbn zeta.
  assert (E : removeChat id A
                (mkWorld d ([true; true; true; true; false] ++ later))
              = (false,
                 mkWorld (mkDatabase (foreign_keys d) (userinfo d)
                            (filter (fun r => negb (fst r =? id)) (chats d))
                            (chatusers d)) later)).
  { unfold removeChat, bind. rewrite chatExists_eq.
    cbn [next_runs schedule hd app db andb tick tl]. rewrite Hc.
    rewrite getChatOwner_eq.
    cbn [next_runs schedule hd app db andb tick tl]. rewrite Hc, Ho.
    rewrite QString_eqb_refl, exec_update_eq. unfold DELETE_FROM_chats.
    cbn [next_runs schedule hd db tl tick]. rewrite Hfk. cbn [andb negb].
    rewrite exec_update_eq. reflexivity. }
  unfold eval at 1, exec_. rewrite E. cbn [fst snd db chatusers].
  assert (Hgone : has_chat id
            (mkDatabase (foreign_keys d) (userinfo d)
               (filter (fun r => negb (fst r =? id)) (chats d))
               (chatusers d)) = false).
  { unfold has_chat. cbn [chats].
    apply (existsb_filter_neg (fun r => fst r =? id)). }
  repeat split.
  - now rewrite chatExists_healthy.
  - unfold eval. rewrite getChatUsers_eq. cbn [db healthy].
    now rewrite Hgone, andb_false_r.
  - intros u. unfold eval. now rewrite removeChat_missing.
  - intros a b. now rewrite !doUsersChat_healthy.
Qed.

Lemma removeChat_second_delete_fails_witness :
  eval (doUsersChat "Bob" "Harry")
       (healthy (db (exec_ (removeChat 1 "Bob")
                      (mkWorld (db demo_chats)
                               [true; true; true; true; false]))))
  = true.
Proof.
  destruct (removeChat_second_delete_fails 1 "Bob" (db demo_chats) []
              eq_refl eq_refl eq_refl) as (_ & _ & _ & _ & _ & H).
  cbn zeta in H. cbn [app] in H. rewrite H. reflexivity.
Defined.

(** ** Invariants of every run *)

Lemma In_key_name (s : string) (l : list (QString * QString)) :
  In s (flat_map key_name l) <-> exists p, In (text s, p) l.
Proof.
  rewrite in_flat_map. split.
  - intros ([u p] & Hin & Hs). unfold key_name in Hs. cbn [fst] in Hs.
    destruct u as [|name]; [easy|]. destruct Hs as [->|[]]. now exists p.
  - intros (p & Hin). exists (text s, p). split; [exact Hin|now left].
Qed.

Lemma has_user_not_In (s : string) (d : Database) :
  has_user (text s) d = false -> ~ In s (flat_map key_name (userinfo d)).
Proof.
  intros H Hin. apply In_key_name in Hin as (p & Hin).
  apply has_user_In in Hin; [congruence|discriminate].
Qed.

Lemma has_chat_not_In (c : Z) (d : Database) :
  has_chat c d = false -> ~ In c (map fst (chats d)).
Proof.
  intros H Hin. apply in_map_iff in Hin as ([c' o] & E & Hin).
  cbn in E. subst c'.
  assert (has_chat c d = true) by (apply has_chat_exists; now exists o).
  congruence.
Qed.

Lemma NoDup_snoc {A : Type} (l : list A) (a : A) :
  NoDup l -> ~ In a l -> NoDup (l ++ [a]).
Proof.
  intros Hl Ha. apply NoDup_app; [exact Hl|repeat constructor; auto|].
  intros x Hx [<-|[]]. contradiction.
Qed.

Lemma NoDup_map_filter {A B : Type} (g : A -> B) (f : A -> bool)
    (l : list A) :
  NoDup (map g l) -> NoDup (map g (filter f l)).
Proof.
  induction l as [|a l IH]; cbn [map filter]; [auto|].
  intros H. inversion H as [|? ? Hn Hl]; subst.
  destruct (f a); cbn [map]; [|auto].
  constructor; [|auto]. intros Hin. apply Hn.
  apply in_map_iff in Hin as (x & E & Hx). apply filter_In in Hx as [Hx _].
  apply in_map_iff. now exists x.
Qed.

Lemma run_call_keys_unique (call : Call) (w : World) :
  keys_unique (db w) -> keys_unique (db (run_call call w)).
Proof.
  intros [Hu Hc].
  destruct call; cbn [run_call];
    rewrite ?userExists_db, ?checkUserInfo_db, ?chatExists_db,
      ?getChatOwner_db, ?doUsersChat_db, ?getChatUsers_db,
      ?getChatsUserIsIn_db, ?getUserChatInfo_db;
    try (split; assumption).
  - destruct (addUser_effect username password w)
      as [[_ ->] | (_ & Hnew & ->)]; [now split|].
    split; cbn [userinfo chats]; [|exact Hc].
    rewrite flat_map_app. cbn [flat_map]. rewrite app_nil_r.
    destruct username as [|name]; cbn [key_name fst].
    + now rewrite app_nil_r.
    + apply NoDup_snoc; [exact Hu|]. now apply has_user_not_In.
  - destruct (addChat_effect chatID username userVector w)
      as [[_ ->] | (Hnew & _ & U & C & _)]; [now split|].
    split; [now rewrite U|].
    rewrite C, map_app. apply NoDup_snoc; [exact Hc|].
    now apply has_chat_not_In.
  - destruct (removeChat_effect chatID username w)
      as [[_ ->] | [[_ D] | (_ & _ & ->)]]; [now split| |].
    + unfold DELETE_FROM_chats in D.
      destruct (foreign_keys (db w) && has_member_row chatID (db w));
        [discriminate|]. injection D as <-.
      split; cbn [userinfo chats]; [exact Hu|].
      now apply NoDup_map_filter.
    + split; cbn [without_chat userinfo chats]; [exact Hu|].
      now apply NoDup_map_filter.
Qed.

Lemma key_name_one_row (l : list (QString * QString)) (s : string)
    (b b' : QString) :
  NoDup (flat_map key_name l) ->
  In (text s, b) l -> In (text s, b') l -> b = b'.
Proof.
  induction l as [|[x y] l IH]; cbn [flat_map]; intros H H1 H2; [easy|].
  assert (Hin : forall q, In (text s, q) l -> In s (flat_map key_name l))
    by (intros q Hq; apply In_key_name; now exists q).
  destruct H1 as [E1|H1], H2 as [E2|H2].
  - congruence.
  - injection E1 as -> ->. cbn [key_name fst app] in H.
    inversion H; subst. exfalso. eauto.
  - injection E2 as -> ->. cbn [key_name fst app] in H.
    inversion H; subst. exfalso. eauto.
  - apply IH; auto. now apply NoDup_app_remove_l in H.
Qed.

(** X14: in every state the calls can reach from the empty store, store
    failures included, no two rows of [userinfo] have one name (rows whose
    name is [NULL], put in under the null string, may repeat) and no two
    rows of [chats] have one number.  So [checkUserInfo] accepts at most
    one password for a name. *)
Theorem keys_stay_unique (calls : list Call) (failures : list bool) :
  let d := db (run_calls calls (mkWorld empty_db failures)) in
  keys_unique d
  /\ (forall u p p',
        eval (checkUserInfo u p) (healthy d) = true ->
        eval (checkUserInfo u p') (healthy d) = true -> p = p').
Proof.
  cbn zeta.
  assert (H : forall (cs : list Call) (w : World),
             keys_unique (db w) -> keys_unique (db (run_calls cs w))).
  { induction cs as [|call cs IH]; intros w Hw; [exact Hw|].
    cbn [run_calls fold_left]. apply IH. now apply run_call_keys_unique. }
  assert (K : keys_unique
                (db (run_calls calls (mkWorld empty_db failures)))).
  { apply H. split; constructor. }
  split; [exact K|].
  intros u p p' H1 H2.
  apply checkUserInfo_healthy in H1 as (Nu & _ & H1), H2 as (_ & _ & H2).
  destruct u as [|name]; [congruence|].
  exact (key_name_one_row _ name p p' (proj1 K) H1 H2).
Qed.

Lemma run_call_keeps_users (call : Call) (w : World) :
  exists more, userinfo (db (run_call call w)) = userinfo (db w) ++ more.
Proof.
  destruct call; cbn [run_call];
    rewrite ?userExists_db, ?checkUserInfo_db, ?chatExists_db,
      ?getChatOwner_db, ?doUsersChat_db, ?getChatUsers_db,
      ?getChatsUserIsIn_db, ?getUserChatInfo_db;
    try (exists []; now rewrite app_nil_r).
  - destruct (addUser_effect username password w)
      as [[_ ->] | (_ & _ & ->)].
    + exists []. now rewrite app_nil_r.
    + now exists [(username, password)].
  - destruct (addChat_effect chatID username userVector w)
      as [[_ ->] | (_ & _ & -> & _)]; exists []; now rewrite app_nil_r.
  - destruct (removeChat_effect chatID username w)
      as [[_ ->] | [[_ D] | (_ & _ & ->)]];
      exists []; rewrite app_nil_r; [reflexivity| |reflexivity].
    unfold DELETE_FROM_chats in D.
    destruct (foreign_keys (db w) && has_member_row chatID (db w));
      [discriminate|]. now injection D as <-.
Qed.

(** X15: no call removes or rewrites a row of [userinfo], whatever the
    store does: a name and password that [checkUserInfo] accepts are
    accepted after any further calls. *)
Theorem credentials_persist (u p : QString) (calls : list Call)
    (w : World) :
  eval (checkUserInfo u p) (healthy (db w)) = true ->
  eval (checkUserInfo u p) (healthy (db (run_calls calls w))) = true.
Proof.
  revert w. induction calls as [|call calls IH]; intros w H; [exact H|].
  cbn [run_calls fold_left]. apply IH.
  apply checkUserInfo_healthy.
  apply checkUserInfo_healthy in H as (Nu & Np & H).
  destruct (run_call_keeps_users call w) as [more ->].
  split; [exact Nu|]. split; [exact Np|]. apply in_or_app. now left.
Qed.

Lemma credentials_persist_witness :
  eval (checkUserInfo "Bob" "password1")
       (healthy (db (run_calls [CallAddUser "Bob" "other";
                                CallRemoveChat 1 "Bob";
                                CallAddUser "Ted" "password5"]
                               (mkWorld (db demo_chats) [false; true]))))
  = true.
Proof.
  apply (credentials_persist "Bob" "password1"). reflexivity.
Defined.

(** ** Do two users chat, as far as it goes *)

(** X16: whatever the store does, a true answer of [doUsersChat] is right:
    some chat has a membership row for each of the two names. *)
Theorem doUsersChat_true_is_right (a b : QString) (w : World) :
  eval (doUsersChat a b) w = true -> share_a_chat a b (db w).
Proof.
  unfold eval. rewrite doUsersChat_eq.
  destruct (next_runs w); [|discriminate].
  destruct (SELECT_chatid_FROM_chatusers a (db w)) as [|c rows] eqn:E;
    [discriminate|].
  cbn [fst]. intros H. apply andb_true_iff in H as [_ H].
  apply existsb_exists in H as (c' & Hin & Hc).
  apply Z.eqb_eq in Hc. subst c'. exists c. split.
  - apply In_SELECT_chatid. rewrite E. now left.
  - now apply In_SELECT_chatid.
Qed.

Lemma doUsersChat_true_is_right_witness :
  share_a_chat "Bob" "Harry" (db demo_chats).
Proof.
  apply (doUsersChat_true_is_right "Bob" "Harry" demo_chats). reflexivity.
Defined.

(** X17: on a store that does not fail, [doUsersChat a b] is true exactly
    when the first membership row of [a] names a chat that has a
    membership row of [b], [b] not being the null string, which selects no
    row; the later rows of [a] are never compared. *)
Theorem doUsersChat_first_row_decides (a b : QString) (d : Database) :
  eval (doUsersChat a b) (healthy d) = true
  <-> exists c, hd_error (SELECT_chatid_FROM_chatusers a d) = Some c
                /\ b <> QString_null /\ In (c, b) (chatusers d).
Proof.
  rewrite doUsersChat_healthy.
  destruct (SELECT_chatid_FROM_chatusers a d) as [|c rows]; cbn [hd_error].
  - split; [discriminate|]. now intros (c & [=] & _).
  - rewrite existsb_exists. split.
    + intros (c' & Hin & E). apply Z.eqb_eq in E. subst c'.
      exists c. split; [reflexivity|]. now apply In_SELECT_chatid.
    + intros (c' & [= <-] & Hin). exists c. split.
      * now apply In_SELECT_chatid.
      * apply Z.eqb_refl.
Qed.

(** ** The owner's gate under store failures *)

Lemma removeChat_stranger_any_schedule_witness :
  exists w' : World,
    removeChat 1 "Harry" (mkWorld (db demo_chats) [true; true; false])
    = (false, w')
    /\ db w' = db demo_chats.
Proof.
  apply (removeChat_stranger_any_schedule 1 "Bob" "Harry"
           (mkWorld (db demo_chats) [true; true; false]));
    [reflexivity|discriminate|discriminate].
Defined.

(** X19: when the store runs the two existence checks of [removeChat] and
    fails the owner lookup, a request under the empty name passes the
    owner test, whoever owns the chat: with the pragma off and the two
    [DELETE]s run, the chat and its membership rows are deleted. *)
Theorem removeChat_empty_name_passes (id : Z) (d : Database) :
  foreign_keys d = false ->
  has_chat id d = true ->
  removeChat id EmptyString (mkWorld d [true; true; false])
  = (true, healthy (without_chat id d)).
Proof.
  intros Hfk Hc. unfold removeChat, bind. rewrite chatExists_eq.
  cbn [next_runs schedule hd db andb tick tl]. rewrite Hc.
  rewrite getChatOwner_eq.
  cbn [next_runs schedule hd db andb tick tl]. rewrite Hc.
  cbn [QString_eqb chars String.eqb]. rewrite exec_update_eq.
  unfold DELETE_FROM_chats.
  cbn [next_runs schedule hd db tl tick]. rewrite Hfk. cbn [andb negb].
  rewrite exec_update_eq. unfold without_chat. now rewrite Hfk.
Qed.

Lemma removeChat_empty_name_passes_witness :
  removeChat 1 "" (mkWorld (db demo_chats) [true; true; false])
  = (true, healthy (without_chat 1 (db demo_chats))).
Proof.
  exact (removeChat_empty_name_passes 1 (db demo_chats) eq_refl eq_refl).
Defined.

(** ** The null string *)

Lemma has_user_null (d : Database) : has_user QString_null d = false.
Proof.
  unfold has_user. induction (userinfo d) as [|r l IH]; [reflexivity|].
  cbn [existsb]. now rewrite sql_eqb_null.
Qed.

Lemma SELECT_chatid_null (d : Database) :
  SELECT_chatid_FROM_chatusers QString_null d = [].
Proof.
  unfold SELECT_chatid_FROM_chatusers.
  induction (chatusers d) as [|r l IH]; [reflexivity|].
  cbn [filter]. now rewrite sql_eqb_null.
Qed.

Lemma matches_null_password (u : QString) (l : list (QString * QString)) :
  existsb (matches u QString_null) l = false.
Proof.
  induction l as [|r l IH]; [reflexivity|].
  cbn [existsb]. unfold matches at 1.
  now rewrite sql_eqb_null, andb_false_r.
Qed.

(** X24: the null string is nobody.  It is bound as [NULL], which no
    column equals, so whatever the tables hold and whatever the store does,
    [userExists] of it is false, [checkUserInfo] with it as name or as
    password is false, [getChatsUserIsIn] of it is empty, [doUsersChat]
    with it on either side is false, and [addChat] with it as owner returns
    false and writes nothing. *)
Theorem null_string_is_nobody (w : World) :
  eval (userExists QString_null) w = false
  /\ (forall u p, u = QString_null \/ p = QString_null ->
                  eval (checkUserInfo u p) w = false)
  /\ eval (getChatsUserIsIn QString_null) w = []
  /\ (forall a b, a = QString_null \/ b = QString_null ->
                  eval (doUsersChat a b) w = false)
  /\ (forall c members,
        eval (addChat c QString_null members) w = false
        /\ db (exec_ (addChat c QString_null members) w) = db w).
Proof.
  unfold eval, exec_. split; [|split; [|split; [|split]]].
  - now rewrite userExists_eq, has_user_null, andb_false_r.
  - intros u p [-> | ->]; rewrite checkUserInfo_eq.
    + now rewrite has_user_null, andb_false_r.
    + destruct (next_runs w && has_user u (db w)); [|reflexivity].
      now rewrite matches_null_password, andb_false_r.
  - now rewrite getChatsUserIsIn_eq, has_user_null, andb_false_r.
  - intros a b [-> | ->]; rewrite doUsersChat_eq, ?SELECT_chatid_null.
    + now destruct (next_runs w).
    + destruct (next_runs w); [|reflexivity].
      destruct (SELECT_chatid_FROM_chatusers a (db w)); [reflexivity|].
      cbn [existsb fst]. apply andb_false_r.
  - intros c members. unfold addChat, bind.
    rewrite chatExists_eq.
    destruct (next_runs w && has_chat c (db w)); [now split|].
    rewrite userExists_eq, has_user_null, andb_false_r. now split.
Qed.

(** X25: [addUser] under the null string never finds the user there, and
    a [NULL] key clashes with no key: the call returns true exactly when
    the store runs the [INSERT], and then appends a row with a [NULL] name,
    however many the table holds. *)
Theorem addUser_null_adds (p : QString) (w : World) :
  eval (addUser QString_null p) w = next_runs (tick w)
  /\ (eval (addUser QString_null p) w = true ->
      userinfo (db (exec_ (addUser QString_null p) w))
      = userinfo (db w) ++ [(QString_null, p)]).
Proof.
  unfold eval, exec_. rewrite addUser_eq, has_user_null, andb_false_r.
  cbn [negb]. rewrite andb_true_r.
  destruct (next_runs (tick w)); split; try reflexivity; discriminate.
Qed.

(** ** Creating the tables *)

(** X20: [createUserTable] returns true exactly when the store runs the
    statement and the table was not there; afterwards the table is there
    unless the store failed the statement on a file without it, and the
    other two tables are as before. *)
Theorem createUserTable_outcome (c : Connection) :
  let r := fst (createUserTable c) in
  let s' := tables (snd (createUserTable c)) in
  (r = true <->
   hd true (verdicts c) = true /\ userinfo_table (tables c) = false)
  /\ userinfo_table s'
     = userinfo_table (tables c) || hd true (verdicts c)
  /\ chats_table s' = chats_table (tables c)
  /\ chatusers_table s' = chatusers_table (tables c).
Proof.
  cbn zeta. unfold createUserTable, exec_create, CREATE_TABLE_userinfo.
  destruct c as [[ut ct mt] v]. cbn [tables verdicts chats_table
    chatusers_table userinfo_table].
  destruct (hd true v), ut;
    cbn; repeat split; intros; try discriminate; auto;
    try (destruct H; discriminate).
Qed.

(** X21: [createChatTables] returns true exactly when the store runs both
    statements and neither table was there.  When [chats] is already
    there it creates nothing, so a missing [chatusers] stays missing; when
    only [chatusers] is there it creates [chats] and returns false.  It
    never touches [userinfo]. *)
Theorem createChatTables_outcome (c : Connection) :
  let r := fst (createChatTables c) in
  let s' := tables (snd (createChatTables c)) in
  (r = true <->
   hd true (verdicts c) = true /\ hd true (tl (verdicts c)) = true
   /\ chats_table (tables c) = false
   /\ chatusers_table (tables c) = false)
  /\ (r = true -> chats_table s' = true /\ chatusers_table s' = true)
  /\ (chats_table (tables c) = true -> s' = tables c)
  /\ (hd true (verdicts c) = true -> chats_table s' = true)
  /\ userinfo_table s' = userinfo_table (tables c).
Proof.
  cbn zeta. unfold createChatTables, exec_create, CREATE_TABLE_chats,
    CREATE_TABLE_chatusers.
  destruct c as [[ut ct mt] v]. cbn [tables verdicts chats_table
    chatusers_table userinfo_table].
  destruct (hd true v), ct; cbn;
    try (destruct (hd true (tl v)), mt; cbn);
    repeat split; intros; try discriminate; auto;
    repeat match goal with H : _ /\ _ |- _ => destruct H end;
    try discriminate.
Qed.

(** X22: start-up can be repeated.  After [createUserTable] and
    [createChatTables] have both returned true, running them again returns
    false twice, whatever the store does, and leaves the three tables in
    place. *)
Theorem startup_twice (c : Connection) (later : list bool) :
  fst (createUserTable c) = true ->
  fst (createChatTables (snd (createUserTable c))) = true ->
  let c2 := snd (createChatTables (snd (createUserTable c))) in
  let again := mkConnection (tables c2) later in
  tables c2 = mkSchema true true true
  /\ fst (createUserTable again) = false
  /\ fst (createChatTables (snd (createUserTable again))) = false
  /\ tables (snd (createChatTables (snd (createUserTable again))))
     = mkSchema true true true.
Proof.
  cbn zeta. unfold createUserTable, createChatTables, exec_create,
    CREATE_TABLE_userinfo, CREATE_TABLE_chats, CREATE_TABLE_chatusers.
  destruct c as [[ut ct mt] v]. cbn [tables verdicts chats_table
    chatusers_table userinfo_table].
  destruct (hd true v), ut; cbn; try discriminate. intros _.
  destruct (hd true (tl v)), ct; cbn; try discriminate.
  destruct (hd true (tl (tl v))), mt; cbn; try discriminate. intros _.
  destruct (hd true later); cbn; destruct (hd true (tl later)); cbn; auto.
Qed.

Lemma startup_twice_witness :
  fst (createChatTables
         (snd (createUserTable
                 (mkConnection (mkSchema true true true) []))))
  = false.
Proof.
  destruct (startup_twice (mkConnection (mkSchema false false false) []) []
              eq_refl eq_refl) as (_ & _ & H & _).
  exact H.
Defined.
